(** * The Fourier core of the FFT teaching application

    A shallow embedding of the numeric functions of the two [App]
    components of the repository (the backup component, lines 1-622 of
    [src/src/App_buckup.tsx], and the current one, from line 623 on):
    [fft], [generateSineWave], [generateCompositeWave], the inline
    [compositeWave], [calculateDFTForFrequency] and the centroid computed in
    the component's effect.

    JavaScript [number]s are modelled by the real numbers [R]: [Math.sin],
    [Math.cos] and [Math.exp] are [sin], [cos] and [exp], [Math.PI] is
    [PI].  Rounding, NaN and the infinities are outside this model.
    Lengths, indices and loop counters are natural numbers.  A JavaScript
    exception is an explicit [Throw] outcome. *)

From Stdlib Require Import Reals Lra Lia Arith ZArith Zify ZifyNat.
From stdpp Require Import base list.
From Equations Require Import Equations.

(** [lia] also decides goals with division and remainder by a constant. *)
Ltac Zify.zify_post_hook ::= Z.to_euclidean_division_equations.

(** ** Outcomes of a call *)

(** [TypeError] is the only exception the runtime raises in this code
    (reading a field of [undefined]).  [InvalidLength], [MismatchedLength]
    and [InvalidParameter] are the error kinds named by the specification;
    no statement of the source constructs them. *)
Inductive exn : Set :=
| TypeError
| InvalidLength
| MismatchedLength
| InvalidParameter.

Inductive result (A : Type) : Type :=
| Ok (a : A)
| Throw (e : exn).
Arguments Ok {A} a.
Arguments Throw {A} e.

Definition bind {A B : Type} (m : result A) (f : A -> result B) : result B :=
  match m with
  | Ok a => f a
  | Throw e => Throw e
  end.

Notation "'let*' x ':=' m 'in' k" := (bind m (fun x => k))
  (at level 10, x name, m at level 100, k at level 200).

(** [for (let k = k0; ...; k++) body] running [trips] times on a
    loop-carried state; an exception in the body leaves the loop. *)
Fixpoint for_loop {S : Type} (body : nat -> S -> result S)
    (k trips : nat) (s : S) : result S :=
  match trips with
  | O => Ok s
  | Datatypes.S t => let* s' := body k s in for_loop body (Datatypes.S k) t s'
  end.

(** [arr.reduce(f, init)] with a callback that may throw. *)
Fixpoint reduce {A B : Type} (f : B -> A -> result B) (l : list A) (acc : B)
    : result B :=
  match l with
  | [] => Ok acc
  | x :: t => let* acc' := f acc x in reduce f t acc'
  end.

(** [arr.map((x, index) => f(x, index))] with a callback that may throw;
    [k] is the index of the head of [l]. *)
Fixpoint map_from {A B : Type} (f : A -> nat -> result B) (k : nat)
    (l : list A) : result (list B) :=
  match l with
  | [] => Ok []
  | x :: t =>
      let* y := f x k in
      let* ys := map_from f (Datatypes.S k) t in
      Ok (y :: ys)
  end.

Definition Array_map {A B : Type} (f : A -> nat -> result B) (l : list A)
    : result (list B) :=
  map_from f 0 l.

(** ** Data *)

(** [interface Complex { r: number; i: number }] *)
Record Complex : Set := mkComplex { r : R; i : R }.

(** A JavaScript array whose slots may be empty: [None] is a hole, which
    reads as [undefined].  [new Array<Complex>(N)] has [N] holes. *)
Abbreviation JSArray := (list (option Complex)).

Definition new_Array (N : nat) : JSArray := replicate N None.

(** [arr[k]]: the element, or [undefined] ([None]) at a hole or out of
    range. *)
Definition get (arr : JSArray) (k : nat) : option Complex :=
  match arr !! k with
  | Some (Some c) => Some c
  | _ => None
  end.

(** [arr[k].r], [arr[k].i]: reading a field of [undefined] throws. *)
Definition read (arr : JSArray) (k : nat) : result Complex :=
  match get arr k with
  | Some c => Ok c
  | None => Throw TypeError
  end.

(** An array without holes, as every [Complex[]] built by [map], [filter],
    [push] or [Array.from] is. *)
Definition dense (l : list Complex) : JSArray := Some <$> l.

(** [data.filter((_, i) => p(i))]: the elements whose index satisfies [p],
    in order. *)
Fixpoint filter_from {A : Type} (p : nat -> bool) (k : nat) (l : list A)
    : list A :=
  match l with
  | [] => []
  | x :: t => if p k then x :: filter_from p (S k) t
              else filter_from p (S k) t
  end.

Definition filter_index {A : Type} (p : nat -> bool) (l : list A) : list A :=
  filter_from p 0 l.

(** [i % 2 === 0] and [i % 2 !== 0] on an index. *)
Definition even_index (k : nat) : bool := k mod 2 =? 0.
Definition odd_index (k : nat) : bool := negb (k mod 2 =? 0).

Lemma length_filter_from_parity {A : Type} (l : list A) (k : nat) :
  length (filter_from even_index k l)
    = (if Nat.even k then (length l + 1) / 2 else length l / 2)%nat
  /\ length (filter_from odd_index k l)
    = (if Nat.even k then length l / 2 else (length l + 1) / 2)%nat.
Proof.
  revert k; induction l as [|x t IH]; intros k.
  - destruct (Nat.even k); split; reflexivity.
  - destruct (IH (S k)) as [IHe IHo].
    unfold even_index, odd_index in *. cbn [filter_from length].
    rewrite Nat.even_succ, <- Nat.negb_even in IHe, IHo.
    assert (Hk : (k mod 2 =? 0) = Nat.even k).
    { destruct (Nat.even k) eqn:E.
      - apply Nat.even_spec in E. destruct E as [m ->].
        apply Nat.eqb_eq. rewrite Nat.mul_comm. apply Nat.Div0.mod_mul.
      - apply Nat.eqb_neq. intros Hm.
        apply Nat.Div0.mod_divides in Hm. destruct Hm as [m ->].
        rewrite Nat.even_mul in E. discriminate. }
    rewrite Hk. destruct (Nat.even k); cbn [negb length] in *;
      rewrite IHe, IHo; split; lia.
Qed.

Lemma length_filter_even {A : Type} (l : list A) :
  length (filter_index even_index l) = ((length l + 1) / 2)%nat.
Proof. exact (proj1 (length_filter_from_parity l 0)). Qed.

Lemma length_filter_odd {A : Type} (l : list A) :
  length (filter_index odd_index l) = (length l / 2)%nat.
Proof. exact (proj2 (length_filter_from_parity l 0)). Qed.

Local Open Scope R_scope.

(** ** generateSineWave (identical in both components) *)

Definition generateSineWave (numPoints : nat) (freq amp decay phase : R)
    : list Complex :=
  (fun index : nat =>
     let angle :=
       INR index / INR numPoints * freq * PI * 2 + phase * PI / 180 in
     let amplitude := sin angle * amp * exp (- decay * INR index) in
     {| r := amplitude; i := 0 |}) <$> seq 0 numPoints.

(** ** calculateDFTForFrequency (identical in both components)

    The division by [samplingRate] is that of the reals: the embedding
    follows the code for [samplingRate <> 0]; at [samplingRate = 0] the
    code computes an infinite or NaN angle and NaN samples, which the real
    numbers do not represent. *)

Definition calculateDFTForFrequency (data : list Complex)
    (targetFrequency : R) (numPoints : nat) (samplingRate : R)
    : result (list Complex) :=
  let twoPi := 2 * PI in
  let freqRad := twoPi * targetFrequency / samplingRate in
  for_loop
    (fun (n : nat) (dftResults : list Complex) =>
       let angle := freqRad * INR n in
       let* d := read (dense data) n in
       let realPart := d.(r) * cos angle - d.(i) * sin angle in
       let imagPart := d.(i) * cos angle + d.(r) * sin angle in
       Ok (dftResults ++ [ {| r := realPart; i := imagPart |} ]))
    0%nat numPoints [].

(** ** fft

    The two components differ in one line: the backup has
    [const half = Math.floor(N / 2)], the current one [const half = N / 2].
    Everything else of [fft] is shared, so the embedding is parameterised
    by that line. *)
Inductive halving : Set :=
| FloorHalf   (* Math.floor(N / 2) *)
| ExactHalf.  (* N / 2 *)

(** The number of iterations of [for (let k = 0; k < half; k++)]: with
    [half = N / 2] and [N] odd, [half] is not an integer and the guard
    holds up to [k = (N - 1) / 2]. *)
Definition trips (h : halving) (N : nat) : nat :=
  match h with
  | FloorHalf => (N / 2)%nat
  | ExactHalf => ((N + 1) / 2)%nat
  end.

(** [results[k + half] = v].  With [half = N / 2] and [N] odd the key
    [k + half] is not an array index: the assignment adds a named property
    and leaves the elements and the length as they are.  In every other
    case [k + half < N], so the assignment never extends the array. *)
Definition store_upper (h : halving) (N k : nat) (v : Complex)
    (results : JSArray) : JSArray :=
  match h with
  | FloorHalf => <[(k + N / 2)%nat := Some v]> results
  | ExactHalf =>
      if Nat.even N then <[(k + N / 2)%nat := Some v]> results else results
  end.

(** The body of the loop of [fft]. *)
Definition butterfly (h : halving) (N : nat) (even odd : JSArray)
    (k : nat) (results : JSArray) : result JSArray :=
  let a := -2 * PI in
  let exp := {| r := cos (a * INR k / INR N); i := sin (a * INR k / INR N) |} in
  let* o := read odd k in
  let temp := {| r := exp.(r) * o.(r) - exp.(i) * o.(i);
                 i := exp.(i) * o.(r) + exp.(r) * o.(i) |} in
  let* e := read even k in
  let results :=
    <[k := Some {| r := e.(r) + temp.(r); i := e.(i) + temp.(i) |}]> results in
  Ok (store_upper h N k
        {| r := e.(r) - temp.(r); i := e.(i) - temp.(i) |} results).

Equations? fft_by (h : halving) (data : list Complex) : result JSArray
    by wf (length data) lt :=
  fft_by h data with le_lt_dec (length data) 1 := {
    | left _ => Ok (dense data)
    | right _ =>
        let N := length data in
        let* even := fft_by h (filter_index even_index data) in
        let* odd := fft_by h (filter_index odd_index data) in
        for_loop (butterfly h N even odd) 0%nat (trips h N) (new_Array N) }.
Proof.
  - rewrite length_filter_even.
    apply Nat.Div0.div_lt_upper_bound. lia.
  - rewrite length_filter_odd.
    apply Nat.Div0.div_lt_upper_bound. lia.
Qed.

(** ** The backup component (lines 1-622) *)
Module Backup.

Definition fft : list Complex -> result JSArray := fft_by FloorHalf.

(** The [waves] of [generateCompositeWave]: one generated wave per entry
    of [freqs].  With [numPoints = 0] no sample is computed and every wave
    is empty, whatever the parameters.  Otherwise [amps[i]], [decays[i]] or
    [phases[i]] beyond the end of its array is [undefined] and turns every
    sample into NaN, which the real numbers do not represent: [None]. *)
Definition waves_of (numPoints : nat) (freqs amps decays phases : list R)
    : option (list (list Complex)) :=
  mapM (fun '(i, freq) =>
          if (numPoints =? 0)%nat then Some []
          else
            amp ← amps !! i;
            decay ← decays !! i;
            phase ← phases !! i;
            Some (generateSineWave numPoints freq amp decay phase))
       (zip (seq 0 (length freqs)) freqs).

(** The expression [generateCompositeWave] returns, as a function of its
    local [waves].  [waves[0]] of an empty array is [undefined], whose
    [map] cannot be read; [wave[index]] beyond the end of a wave is
    [undefined] too.  The accumulator is a fresh object at every index
    and only its [r] is updated. *)
Definition composite_of (waves : list (list Complex))
    : result (list Complex) :=
  match waves !! 0%nat with
  | None => Throw TypeError
  | Some first =>
      Array_map
        (fun (_ : Complex) (index : nat) =>
           reduce
             (fun (acc : Complex) (wave : list Complex) =>
                let* sample := read (dense wave) index in
                Ok {| r := acc.(r) + sample.(r); i := acc.(i) |})
             waves {| r := 0; i := 0 |})
        first
  end.

Definition generateCompositeWave (numPoints : nat)
    (freqs amps decays phases : list R) : option (result (list Complex)) :=
  composite_of <$> waves_of numPoints freqs amps decays phases.

(** The value handed to [setCentroid] in the effect, from [dftResults]. *)
Definition centroid (dftResults : list Complex) : Complex :=
  let total :=
    fold_left
      (fun acc point =>
         {| r := acc.(r) + point.(r); i := acc.(i) + point.(i) |})
      dftResults {| r := 0; i := 0 |} in
  {| r := total.(r) / INR (length dftResults);
     i := total.(i) / INR (length dftResults) |}.

End Backup.

(** ** The current component (from line 623) *)
Module App.

Definition fft : list Complex -> result JSArray := fft_by ExactHalf.

(** [const compositeWave = sineWave1.map((point, index) => ...)], as a
    function of the three waves it reads. *)
Definition compositeWave (sineWave1 sineWave2 sineWave3 : list Complex)
    : result (list Complex) :=
  Array_map
    (fun (point : Complex) (index : nat) =>
       let* p2 := read (dense sineWave2) index in
       let* p3 := read (dense sineWave3) index in
       Ok {| r := point.(r) + p2.(r) + p3.(r);
             i := point.(i) + p2.(i) + p3.(i) |})
    sineWave1.

(** The value handed to [setCentroid] in the effect, from [dftResults]. *)
Definition centroid (dftResults : list Complex) : Complex :=
  let total :=
    fold_left
      (fun acc point =>
         {| r := acc.(r) + point.(r); i := acc.(i) + point.(i) |})
      dftResults {| r := 0; i := 0 |} in
  {| r := total.(r) / INR (length dftResults) * 2;
     i := total.(i) / INR (length dftResults) * 2 |}.

End App.

(** ** Vocabulary of the statements *)

Definition is_power_of_two (N : nat) : Prop := exists m : nat, N = (2 ^ m)%nat.

(** A real-valued signal: every sample has imaginary part zero. *)
Definition real_valued (data : list Complex) : Prop :=
  Forall (fun c => c.(i) = 0) data.

Definition conjugate (c : Complex) : Complex := {| r := c.(r); i := - c.(i) |}.

Definition zero : Complex := {| r := 0; i := 0 |}.

(** Sum of a list of reals. *)
Definition Rsum (l : list R) : R := fold_right Rplus 0 l.

(** Sum of two complex numbers, and the elementwise sum of two signals. *)
Definition add (x y : Complex) : Complex :=
  {| r := x.(r) + y.(r); i := x.(i) + y.(i) |}.

Definition add_signals (a b : list Complex) : list Complex :=
  zip_with add a b.

(** The elementwise sum of two outcomes of [fft]: slot by slot, with a hole
    where either array has one; an exception stays an exception. *)
Definition add_slots (x y : option Complex) : option Complex :=
  match x, y with
  | Some c, Some d => Some (add c d)
  | _, _ => None
  end.

Definition add_arrays (A B : JSArray) : JSArray := zip_with add_slots A B.

Definition add_results (ra rb : result JSArray) : result JSArray :=
  match ra, rb with
  | Ok A, Ok B => Ok (add_arrays A B)
  | Throw e, _ => Throw e
  | _, Throw e => Throw e
  end.

(** Which slots of an array are filled, and the same for an outcome. *)
Definition shape (A : JSArray) : list bool :=
  (fun s : option Complex => match s with Some _ => true | None => false end)
    <$> A.

Definition outcome_shape (ra : result JSArray) : result (list bool) :=
  match ra with
  | Ok A => Ok (shape A)
  | Throw e => Throw e
  end.

(** The sample [calculateDFTForFrequency] pushes at index [n]: the input
    sample rotated by [angle]. *)
Definition rotate (angle : R) (d : Complex) : Complex :=
  {| r := d.(r) * cos angle - d.(i) * sin angle;
     i := d.(i) * cos angle + d.(r) * sin angle |}.

(** The factor [exp] of the loop of [fft] at index [k], and the two values
    the loop body stores from [even[k] = e] and [odd[k] = o]. *)
Definition twiddle (N k : nat) : Complex :=
  {| r := cos (-2 * PI * INR k / INR N); i := sin (-2 * PI * INR k / INR N) |}.

Definition lower (N k : nat) (e o : Complex) : Complex :=
  {| r := e.(r) + ((twiddle N k).(r) * o.(r) - (twiddle N k).(i) * o.(i));
     i := e.(i) + ((twiddle N k).(i) * o.(r) + (twiddle N k).(r) * o.(i)) |}.

Definition upper (N k : nat) (e o : Complex) : Complex :=
  {| r := e.(r) - ((twiddle N k).(r) * o.(r) - (twiddle N k).(i) * o.(i));
     i := e.(i) - ((twiddle N k).(i) * o.(r) + (twiddle N k).(r) * o.(i)) |}.

(** Coefficient [j] of the transform of a signal of [2 ^ m] samples, by the
    recurrence of the loop: the lower half of the output adds, the upper
    half subtracts. *)
Fixpoint coefficient (m : nat) (data : list Complex) (j : nat) : Complex :=
  match m with
  | O => nth j data zero
  | S m' =>
      let even := coefficient m' (filter_index even_index data) in
      let odd := coefficient m' (filter_index odd_index data) in
      if (j <? 2 ^ m')%nat
      then lower (2 ^ m) j (even j) (odd j)
      else upper (2 ^ m) (j - 2 ^ m') (even (j - 2 ^ m')%nat)
                 (odd (j - 2 ^ m')%nat)
  end.

(** The list of the first [n] values of [f]. *)
Definition tabulate (f : nat -> Complex) (n : nat) : list Complex :=
  f <$> seq 0 n.

(** * Properties *)

(** ** Small facts about the array primitives *)

Lemma get_dense (l : list Complex) (k : nat) : get (dense l) k = l !! k.
Proof.
  unfold get, dense. rewrite list_lookup_fmap.
  destruct (l !! k); reflexivity.
Qed.

Lemma read_dense_Some (l : list Complex) (k : nat) (c : Complex) :
  l !! k = Some c -> read (dense l) k = Ok c.
Proof. intros H. unfold read. rewrite get_dense, H. reflexivity. Qed.

Lemma read_dense_None (l : list Complex) (k : nat) :
  l !! k = None -> read (dense l) k = Throw TypeError.
Proof. intros H. unfold read. rewrite get_dense, H. reflexivity. Qed.

(** ** generateSineWave *)

Lemma length_generateSineWave numPoints freq amp decay phase :
  length (generateSineWave numPoints freq amp decay phase) = numPoints.
Proof. unfold generateSineWave. rewrite length_fmap. apply length_seq. Qed.

Lemma generateSineWave_lookup numPoints freq amp decay phase (n : nat) :
  (n < numPoints)%nat ->
  generateSineWave numPoints freq amp decay phase !! n
  = Some {| r := sin (INR n / INR numPoints * freq * PI * 2 + phase * PI / 180)
                 * amp * exp (- decay * INR n);
            i := 0 |}.
Proof.
  intros Hn. unfold generateSineWave.
  rewrite list_lookup_fmap, lookup_seq_lt by exact Hn. reflexivity.
Qed.

Lemma generateSineWave_real numPoints freq amp decay phase :
  real_valued (generateSineWave numPoints freq amp decay phase).
Proof.
  unfold real_valued, generateSineWave.
  apply Forall_fmap, Forall_forall. intros; reflexivity.
Qed.

(** C5.  For a positive [numPoints] and any real parameters, the sample of
    the generated wave at every index [n < numPoints] is
    [sin((n/numPoints)·frequency·2π + phaseDegrees·π/180) · amplitude ·
    exp(-decayCoefficient·n)] with imaginary part [0]; with decay 0,
    amplitude 1 and phase 0 it is [sin(2π·f·n/numPoints)]. *)
Theorem generateSineWave_sample
    (numPoints : nat) (frequency amplitude decayCoefficient phaseDegrees : R)
    (n : nat) :
  (0 < numPoints)%nat -> (n < numPoints)%nat ->
  generateSineWave numPoints frequency amplitude decayCoefficient phaseDegrees
    !! n
  = Some {| r := sin (INR n / INR numPoints * frequency * (2 * PI)
                      + phaseDegrees * (PI / 180))
                 * amplitude * exp (- decayCoefficient * INR n);
            i := 0 |}
  /\ generateSineWave numPoints frequency 1 0 0 !! n
     = Some {| r := sin (2 * PI * frequency * INR n / INR numPoints);
               i := 0 |}.
Proof.
  intros _ Hn. rewrite !generateSineWave_lookup by exact Hn. split.
  - replace (INR n / INR numPoints * frequency * PI * 2
             + phaseDegrees * PI / 180)
      with (INR n / INR numPoints * frequency * (2 * PI)
            + phaseDegrees * (PI / 180))
      by (unfold Rdiv; ring).
    reflexivity.
  - f_equal. f_equal.
    replace (- 0 * INR n) with 0 by ring. rewrite exp_0.
    replace (INR n / INR numPoints * frequency * PI * 2 + 0 * PI / 180)
      with (2 * PI * frequency * INR n / INR numPoints)
      by (unfold Rdiv; ring).
    ring.
Qed.

Lemma generateSineWave_sample_witness :
  generateSineWave 4 3 2 1 90 !! 1%nat
  = Some {| r := sin (INR 1 / INR 4 * 3 * (2 * PI) + 90 * (PI / 180))
                 * 2 * exp (- 1 * INR 1);
            i := 0 |}
  /\ generateSineWave 4 3 1 0 0 !! 1%nat
     = Some {| r := sin (2 * PI * 3 * INR 1 / INR 4); i := 0 |}.
Proof. apply (generateSineWave_sample 4 3 2 1 90 1); lia. Defined.

(** ** calculateDFTForFrequency *)

Lemma projector_loop (data : list Complex) (freqRad : R) :
  forall (count k : nat) (acc : list Complex),
    (k <= length data)%nat ->
    for_loop
      (fun (n : nat) (dftResults : list Complex) =>
         let angle := freqRad * INR n in
         let* d := read (dense data) n in
         let realPart := d.(r) * cos angle - d.(i) * sin angle in
         let imagPart := d.(i) * cos angle + d.(r) * sin angle in
         Ok (dftResults ++ [ {| r := realPart; i := imagPart |} ]))
      k count acc
    = if (k + count <=? length data)%nat
      then Ok (acc ++ imap (fun j d => rotate (freqRad * INR (k + j)) d)
                           (take count (drop k data)))
      else Throw TypeError.
Proof.
  induction count as [|t IH]; intros k acc Hk.
  - cbn [for_loop]. rewrite Nat.add_0_r.
    destruct (Nat.leb_spec k (length data)); [|lia].
    rewrite take_0. cbn. rewrite app_nil_r. reflexivity.
  - cbn [for_loop].
    destruct (data !! k) as [d|] eqn:Hd.
    + assert (Hlt : (k < length data)%nat)
        by (apply lookup_lt_is_Some; eauto).
      rewrite (read_dense_Some _ _ _ Hd). cbn [bind].
      rewrite IH by lia.
      replace (S k + t)%nat with (k + S t)%nat by lia.
      destruct (k + S t <=? length data)%nat; [|reflexivity].
      rewrite (drop_S _ _ _ Hd). cbn [take]. rewrite imap_cons.
      rewrite <- app_assoc. cbn [app]. unfold rotate at 2.
      rewrite Nat.add_0_r. do 3 f_equal.
      apply imap_ext. intros j x _. cbn.
      replace (k + S j)%nat with (S (k + j))%nat by lia. reflexivity.
    + assert (Hge : (length data <= k)%nat) by (apply lookup_ge_None; exact Hd).
      rewrite (read_dense_None _ _ Hd). cbn [bind].
      destruct (Nat.leb_spec (k + S t) (length data)); [lia|reflexivity].
Qed.

(** The projector in closed form: it fails exactly when [numPoints] exceeds
    the length of the signal, at the first read beyond its end. *)
Lemma calculateDFTForFrequency_eq data targetFrequency numPoints samplingRate :
  calculateDFTForFrequency data targetFrequency numPoints samplingRate
  = if (numPoints <=? length data)%nat
    then Ok (imap (fun n d =>
                     rotate (2 * PI * targetFrequency / samplingRate * INR n) d)
                  (take numPoints data))
    else Throw TypeError.
Proof.
  unfold calculateDFTForFrequency. cbv zeta.
  rewrite projector_loop by lia. cbn [Nat.add app]. rewrite drop_0.
  reflexivity.
Qed.

(** C8.  Projecting at target frequency 0 returns the signal unchanged,
    sample for sample, when [numPoints] is the length of the signal and the
    sampling rate is positive. *)
Theorem calculateDFTForFrequency_zero_frequency
    (data : list Complex) (numPoints : nat) (samplingRate : R) :
  length data = numPoints -> 0 < samplingRate ->
  calculateDFTForFrequency data 0 numPoints samplingRate = Ok data.
Proof.
  intros Hlen _. rewrite calculateDFTForFrequency_eq, <- Hlen.
  rewrite Nat.leb_refl, firstn_all. f_equal.
  rewrite <- (imap_ext (fun _ d => d)).
  - clear. generalize dependent data. induction data as [|x t IH]; [reflexivity|].
    rewrite imap_cons. f_equal. exact IH.
  - intros n [dr di] _. unfold rotate. cbn [r i].
    replace (2 * PI * 0 / samplingRate * INR n) with 0
      by (unfold Rdiv; ring).
    rewrite cos_0, sin_0. f_equal; ring.
Qed.

Lemma calculateDFTForFrequency_zero_frequency_witness :
  calculateDFTForFrequency
    [ {| r := 1; i := 2 |}; {| r := 3; i := 4 |} ] 0 2 1000
  = Ok [ {| r := 1; i := 2 |}; {| r := 3; i := 4 |} ].
Proof.
  apply calculateDFTForFrequency_zero_frequency; [reflexivity | lra].
Defined.

(** C10.  [numPoints] is a parameter of its own: the loop reads [data[n]]
    for every [n < numPoints].  When the signal has at least [numPoints]
    samples every read is in bounds and the trajectory has exactly
    [numPoints] samples, each the rotated input sample; when the signal is
    shorter, the read at index [length data] is out of bounds and the call
    ends in the runtime's [TypeError]. *)
Theorem calculateDFTForFrequency_bounds
    (data : list Complex) (targetFrequency : R) (numPoints : nat)
    (samplingRate : R) :
  ((numPoints <= length data)%nat ->
   exists trajectory : list Complex,
     calculateDFTForFrequency data targetFrequency numPoints samplingRate
       = Ok trajectory
     /\ length trajectory = numPoints
     /\ forall n : nat, (n < numPoints)%nat ->
        exists d : Complex,
          data !! n = Some d
          /\ trajectory !! n
             = Some (rotate (2 * PI * targetFrequency / samplingRate * INR n)
                            d))
  /\ ((length data < numPoints)%nat ->
      data !! length data = None
      /\ calculateDFTForFrequency data targetFrequency numPoints samplingRate
         = Throw TypeError).
Proof.
  rewrite calculateDFTForFrequency_eq. split; intros H.
  - destruct (Nat.leb_spec numPoints (length data)); [|lia].
    eexists; split; [reflexivity|]. split.
    + rewrite length_imap, length_take. lia.
    + intros n Hn.
      destruct (lookup_lt_is_Some_2 data n) as [d Hd]; [lia|].
      exists d. split; [exact Hd|].
      rewrite list_lookup_imap, lookup_take_lt, Hd by exact Hn. reflexivity.
  - split; [apply lookup_ge_None; lia|].
    destruct (Nat.leb_spec numPoints (length data)); [lia|reflexivity].
Qed.

Lemma calculateDFTForFrequency_bounds_witness :
  (exists trajectory : list Complex,
     calculateDFTForFrequency
       [ {| r := 1; i := 0 |}; {| r := 2; i := 0 |}; {| r := 3; i := 0 |} ]
       5 2 1000 = Ok trajectory
     /\ length trajectory = 2%nat)
  /\ calculateDFTForFrequency [ {| r := 1; i := 0 |} ] 5 2 1000
     = Throw TypeError.
Proof.
  split.
  - destruct (proj1 (calculateDFTForFrequency_bounds
        [ {| r := 1; i := 0 |}; {| r := 2; i := 0 |}; {| r := 3; i := 0 |} ]
        5 2 1000)) as (t & Ht & Hl & _); [cbn; lia|].
    exists t. split; assumption.
  - apply (proj2 (calculateDFTForFrequency_bounds
        [ {| r := 1; i := 0 |} ] 5 2 1000)). cbn; lia.
Defined.

(** ** The centroid *)

Lemma centroid_total (l : list Complex) :
  forall acc : Complex,
    fold_left
      (fun acc point =>
         {| r := acc.(r) + point.(r); i := acc.(i) + point.(i) |})
      l acc
    = {| r := acc.(r) + Rsum (r <$> l); i := acc.(i) + Rsum (i <$> l) |}.
Proof.
  induction l as [|x t IH]; intros [ar ai]; cbn [fold_left].
  - cbn. f_equal; ring.
  - rewrite IH. cbn. f_equal; unfold Rsum; ring.
Qed.

(** The centroid of the current component is the mean, doubled. *)
Lemma App_centroid_eq (trajectory : list Complex) :
  App.centroid trajectory
  = {| r := Rsum (r <$> trajectory) / INR (length trajectory) * 2;
       i := Rsum (i <$> trajectory) / INR (length trajectory) * 2 |}.
Proof.
  unfold App.centroid. cbv zeta. rewrite centroid_total. cbn [r i].
  rewrite !Rplus_0_l. reflexivity.
Qed.

(** The centroid of the backup component is the mean, not doubled. *)
Lemma Backup_centroid_eq (trajectory : list Complex) :
  Backup.centroid trajectory
  = {| r := Rsum (r <$> trajectory) / INR (length trajectory);
       i := Rsum (i <$> trajectory) / INR (length trajectory) |}.
Proof.
  unfold Backup.centroid. cbv zeta. rewrite centroid_total. cbn [r i].
  rewrite !Rplus_0_l. reflexivity.
Qed.

(** C9, as stated, fails for the backup component, whose effect hands the
    plain mean to [setCentroid]: for the single point [1 + 0i] it is [1],
    not [2]. *)
Lemma Backup_centroid_not_doubled :
  ~ (forall trajectory : list Complex, trajectory <> [] ->
       Backup.centroid trajectory
       = {| r := Rsum (r <$> trajectory) / INR (length trajectory) * 2;
            i := Rsum (i <$> trajectory) / INR (length trajectory) * 2 |}).
Proof.
  intros H. specialize (H [ {| r := 1; i := 0 |} ]).
  rewrite Backup_centroid_eq in H.
  assert (E : [ {| r := 1; i := 0 |} ] <> []) by discriminate.
  apply H in E. apply (f_equal r) in E. cbn in E. lra.
Qed.

(** C9, amended.  For a non-empty trajectory of length [M], the centroid
    computed by the current component is a single complex number whose
    real part is [(Σ real / M) · 2] and whose imaginary part is
    [(Σ imag / M) · 2]. *)
Theorem centroid_mean_scaled (trajectory : list Complex) :
  trajectory <> [] ->
  App.centroid trajectory
  = {| r := Rsum (r <$> trajectory) / INR (length trajectory) * 2;
       i := Rsum (i <$> trajectory) / INR (length trajectory) * 2 |}.
Proof. intros _. apply App_centroid_eq. Qed.

Lemma centroid_mean_scaled_witness :
  App.centroid [ {| r := 1; i := 3 |}; {| r := 2; i := 4 |} ]
  = {| r := Rsum (r <$> [ {| r := 1; i := 3 |}; {| r := 2; i := 4 |} ])
            / INR 2 * 2;
       i := Rsum (i <$> [ {| r := 1; i := 3 |}; {| r := 2; i := 4 |} ])
            / INR 2 * 2 |}.
Proof.
  apply (centroid_mean_scaled
           [ {| r := 1; i := 3 |}; {| r := 2; i := 4 |} ]).
  discriminate.
Defined.

(** ** Composition of waves *)

(** A [map] whose callback either succeeds or throws [TypeError], as decided
    by the index alone. *)
Lemma map_from_spec {A B : Type} (f : A -> nat -> result B)
    (g : nat -> A -> B) (ok : nat -> bool) (l : list A) :
  forall k : nat,
    (forall j x, l !! j = Some x ->
       f x (k + j)%nat
       = if ok (k + j)%nat then Ok (g (k + j)%nat x) else Throw TypeError) ->
    map_from f k l
    = if forallb ok (seq k (length l))
      then Ok (imap (fun j x => g (k + j)%nat x) l)
      else Throw TypeError.
Proof.
  induction l as [|x t IH]; intros k Hf; [reflexivity|].
  cbn [map_from length seq forallb].
  pose proof (Hf 0%nat x eq_refl) as H0. rewrite Nat.add_0_r in H0.
  rewrite H0. destruct (ok k); [|reflexivity]. cbn [bind andb].
  rewrite (IH (S k)).
  - destruct (forallb ok (seq (S k) (length t))); [|reflexivity].
    cbn [bind]. rewrite imap_cons, Nat.add_0_r. do 2 f_equal.
    apply imap_ext. intros j y _. cbn.
    replace (k + S j)%nat with (S (k + j))%nat by lia. reflexivity.
  - intros j y Hy. specialize (Hf (S j) y Hy).
    replace (k + S j)%nat with (S k + j)%nat in Hf by lia. exact Hf.
Qed.

(** The [reduce] of [generateCompositeWave] at one index: it adds the real
    parts and leaves the imaginary part of the accumulator as it is. *)
Lemma reduce_real_parts (index : nat) (waves : list (list Complex)) :
  forall acc : Complex,
    reduce
      (fun (acc : Complex) (wave : list Complex) =>
         let* sample := read (dense wave) index in
         Ok {| r := acc.(r) + sample.(r); i := acc.(i) |})
      waves acc
    = if forallb (fun w => index <? length w)%nat waves
      then Ok {| r := acc.(r)
                      + Rsum ((fun w => (nth index w zero).(r)) <$> waves);
                 i := acc.(i) |}
      else Throw TypeError.
Proof.
  induction waves as [|w t IH]; intros acc; cbn [reduce forallb].
  - cbn. destruct acc as [ar ai]. cbn. do 2 f_equal. ring.
  - destruct (w !! index) as [c|] eqn:Hc.
    + rewrite (read_dense_Some _ _ _ Hc). cbn [bind].
      apply lookup_lt_Some in Hc as Hlt.
      destruct (Nat.ltb_spec index (length w)); [|lia]. cbn [andb].
      rewrite IH. destruct (forallb _ t); [|reflexivity].
      cbn [r i fmap list_fmap]. rewrite nth_lookup, Hc.
      unfold Rsum. cbn. do 2 f_equal. ring.
    + rewrite (read_dense_None _ _ Hc). cbn [bind].
      apply lookup_ge_None in Hc.
      destruct (Nat.ltb_spec index (length w)); [lia|reflexivity].
Qed.

Lemma composite_of_eq (waves : list (list Complex)) (first : list Complex) :
  waves !! 0%nat = Some first ->
  Backup.composite_of waves
  = if forallb (fun n => forallb (fun w => n <? length w)%nat waves)
               (seq 0 (length first))
    then Ok (imap (fun n _ =>
                     {| r := Rsum ((fun w => (nth n w zero).(r)) <$> waves);
                        i := 0 |})
                  first)
    else Throw TypeError.
Proof.
  intros H0. unfold Backup.composite_of, Array_map. rewrite H0.
  rewrite (map_from_spec _
             (fun n _ =>
                {| r := Rsum ((fun w => (nth n w zero).(r)) <$> waves);
                   i := 0 |})
             (fun n => forallb (fun w => n <? length w)%nat waves)).
  - reflexivity.
  - intros j x _. rewrite reduce_real_parts. cbn [r i Nat.add].
    rewrite Rplus_0_l. reflexivity.
Qed.

Lemma all_indices_readable (waves : list (list Complex)) (L : nat) :
  forallb (fun n => forallb (fun w => n <? length w)%nat waves) (seq 0 L)
    = true
  <-> Forall (fun w => (L <= length w)%nat) waves.
Proof.
  rewrite forallb_forall, Forall_forall. split.
  - intros H w Hw. destruct L as [|L']; [lia|].
    specialize (H L'). rewrite forallb_forall in H.
    assert (HL : In L' (seq 0 (S L'))) by (apply in_seq; lia).
    specialize (H HL w (proj1 (list_elem_of_In _ _) Hw)).
    apply Nat.ltb_lt in H. lia.
  - intros H n Hn. apply in_seq in Hn. apply forallb_forall.
    intros w Hw. apply Nat.ltb_lt.
    specialize (H w (proj2 (list_elem_of_In _ _) Hw)). lia.
Qed.

(** The inline composition of the current component, in closed form. *)
Lemma compositeWave_eq (sineWave1 sineWave2 sineWave3 : list Complex) :
  App.compositeWave sineWave1 sineWave2 sineWave3
  = if forallb (fun n => (n <? length sineWave2)%nat
                         && (n <? length sineWave3)%nat)
               (seq 0 (length sineWave1))
    then Ok (imap (fun n point =>
                     {| r := point.(r) + (nth n sineWave2 zero).(r)
                                       + (nth n sineWave3 zero).(r);
                        i := point.(i) + (nth n sineWave2 zero).(i)
                                       + (nth n sineWave3 zero).(i) |})
                  sineWave1)
    else Throw TypeError.
Proof.
  unfold App.compositeWave, Array_map.
  rewrite (map_from_spec _
             (fun n point =>
                {| r := point.(r) + (nth n sineWave2 zero).(r)
                                  + (nth n sineWave3 zero).(r);
                   i := point.(i) + (nth n sineWave2 zero).(i)
                                  + (nth n sineWave3 zero).(i) |})
             (fun n => (n <? length sineWave2)%nat
                       && (n <? length sineWave3)%nat)).
  - reflexivity.
  - intros j x _. cbn [Nat.add]. rewrite !nth_lookup.
    destruct (sineWave2 !! j) as [p2|] eqn:H2.
    + rewrite (read_dense_Some _ _ _ H2). apply lookup_lt_Some in H2.
      destruct (Nat.ltb_spec j (length sineWave2)); [|lia]. cbn [bind andb].
      destruct (sineWave3 !! j) as [p3|] eqn:H3.
      * rewrite (read_dense_Some _ _ _ H3). apply lookup_lt_Some in H3.
        destruct (Nat.ltb_spec j (length sineWave3)); [|lia]. reflexivity.
      * rewrite (read_dense_None _ _ H3). apply lookup_ge_None in H3.
        destruct (Nat.ltb_spec j (length sineWave3)); [lia|]. reflexivity.
    + rewrite (read_dense_None _ _ H2). apply lookup_ge_None in H2.
      destruct (Nat.ltb_spec j (length sineWave2)); [lia|]. reflexivity.
Qed.

Lemma waves_of_spec (numPoints : nat) (freqs amps decays phases : list R)
    (waves : list (list Complex)) :
  Backup.waves_of numPoints freqs amps decays phases = Some waves ->
  length waves = length freqs
  /\ Forall (fun w => length w = numPoints /\ real_valued w) waves.
Proof.
  unfold Backup.waves_of. intros H. apply mapM_Some in H. split.
  - apply Forall2_length in H. rewrite length_zip, length_seq in H. lia.
  - induction H as [|[k freq] w ps ws Hw _ IH]; constructor; [|exact IH].
    destruct (Nat.eqb_spec numPoints 0) as [->|_].
    { injection Hw as <-. split; [reflexivity|constructor]. }
    destruct (amps !! k); [|discriminate].
    destruct (decays !! k); [|discriminate].
    destruct (phases !! k); [|discriminate].
    cbn in Hw. injection Hw as <-.
    split; [apply length_generateSineWave | apply generateSineWave_real].
Qed.

Lemma waves_of_is_Some (numPoints : nat) (freqs amps decays phases : list R) :
  (length freqs <= length amps)%nat ->
  (length freqs <= length decays)%nat ->
  (length freqs <= length phases)%nat ->
  is_Some (Backup.waves_of numPoints freqs amps decays phases).
Proof.
  intros Ha Hd Hp. unfold Backup.waves_of.
  apply mapM_is_Some, Forall_forall. intros [k freq] Hin.
  apply elem_of_zip_l, elem_of_seq in Hin. cbn.
  destruct (numPoints =? 0)%nat; [eauto|].
  destruct (lookup_lt_is_Some_2 amps k) as [a ->]; [lia|].
  destruct (lookup_lt_is_Some_2 decays k) as [d ->]; [lia|].
  destruct (lookup_lt_is_Some_2 phases k) as [p ->]; [lia|].
  cbn. eauto.
Qed.

Lemma imaginary_sum_of_real_waves (waves : list (list Complex)) (n : nat) :
  Forall real_valued waves ->
  Rsum ((fun w => (nth n w zero).(i)) <$> waves) = 0.
Proof.
  induction 1 as [|w t Hw _ IH]; [reflexivity|].
  rewrite fmap_cons. unfold Rsum in *. cbn [fold_right]. rewrite IH.
  rewrite nth_lookup. destruct (w !! n) as [c|] eqn:Hc; cbn.
  - unfold real_valued in Hw. rewrite Forall_forall in Hw.
    rewrite (Hw c (list_elem_of_lookup_2 _ _ _ Hc)). ring.
  - ring.
Qed.

(** The composition of [generateCompositeWave] on one or more signals of
    equal length. *)
Lemma composite_of_equal_lengths (waves : list (list Complex)) (L : nat) :
  waves <> [] -> Forall (fun w => length w = L) waves ->
  exists out : list Complex,
    Backup.composite_of waves = Ok out
    /\ length out = L
    /\ forall n : nat, (n < L)%nat ->
       out !! n
       = Some {| r := Rsum ((fun w => (nth n w zero).(r)) <$> waves);
                 i := 0 |}
       /\ (Forall real_valued waves ->
           Rsum ((fun w => (nth n w zero).(i)) <$> waves) = 0).
Proof.
  intros Hne Hlen.
  destruct waves as [|first rest]; [congruence|].
  assert (HL : length first = L) by (inversion Hlen; assumption).
  rewrite (composite_of_eq (first :: rest) first eq_refl).
  assert (Hall : forallb
            (fun n => forallb (fun w => n <? length w)%nat (first :: rest))
            (seq 0 (length first)) = true).
  { apply all_indices_readable. eapply Forall_impl; [exact Hlen|].
    cbn. intros w Hw. lia. }
  rewrite Hall. eexists. split; [reflexivity|]. split.
  - rewrite length_imap. exact HL.
  - intros n Hn. split.
    + destruct (lookup_lt_is_Some_2 first n) as [c Hc]; [lia|].
      rewrite list_lookup_imap, Hc. reflexivity.
    + apply imaginary_sum_of_real_waves.
Qed.

(** [generateCompositeWave] itself, called with at least one frequency and
    a parameter of each kind for every frequency: [numPoints] samples, each
    the sum of the real parts of the generated waves, with imaginary part
    [0]. *)
Lemma generateCompositeWave_returns (numPoints : nat)
    (freqs amps decays phases : list R) :
  freqs <> [] ->
  (length freqs <= length amps)%nat ->
  (length freqs <= length decays)%nat ->
  (length freqs <= length phases)%nat ->
  exists (waves : list (list Complex)) (out : list Complex),
    Backup.waves_of numPoints freqs amps decays phases = Some waves
    /\ Backup.generateCompositeWave numPoints freqs amps decays phases
       = Some (Ok out)
    /\ length out = numPoints
    /\ forall n : nat, (n < numPoints)%nat ->
       out !! n
       = Some {| r := Rsum ((fun w => (nth n w zero).(r)) <$> waves);
                 i := 0 |}
       /\ Rsum ((fun w => (nth n w zero).(i)) <$> waves) = 0.
Proof.
  intros Hne Ha Hd Hp.
  destruct (waves_of_is_Some numPoints freqs amps decays phases Ha Hd Hp)
    as [waves Hw].
  destruct (waves_of_spec _ _ _ _ _ _ Hw) as [Hlen Hall].
  destruct (composite_of_equal_lengths waves numPoints)
    as (out & Hout & HL & Hn).
  - intros ->. destruct freqs; [congruence|discriminate Hlen].
  - eapply Forall_impl; [exact Hall|]. cbn. intros w [H _]. exact H.
  - exists waves, out. split; [exact Hw|].
    unfold Backup.generateCompositeWave. rewrite Hw. cbn. rewrite Hout.
    split; [reflexivity|]. split; [exact HL|].
    intros n Hlt. destruct (Hn n Hlt) as [H1 H2]. split; [exact H1|].
    apply H2. eapply Forall_impl; [exact Hall|]. cbn. intros w [_ H]. exact H.
Qed.



Lemma both_readable (L l2 l3 : nat) :
  forallb (fun n => (n <? l2)%nat && (n <? l3)%nat) (seq 0 L) = true
  <-> (L <= l2)%nat /\ (L <= l3)%nat.
Proof.
  rewrite forallb_forall. split.
  - intros H. destruct L as [|L']; [lia|].
    assert (HL : In L' (seq 0 (S L'))) by (apply in_seq; lia).
    apply H, andb_prop in HL. destruct HL as [H2 H3].
    apply Nat.ltb_lt in H2, H3. lia.
  - intros [H2 H3] n Hn. apply in_seq in Hn.
    apply andb_true_intro. split; apply Nat.ltb_lt; lia.
Qed.

(** C7, as stated, fails for both compositions: composing a one-sample
    signal with a two-sample signal returns one sample and raises
    nothing. *)
Lemma composite_of_accepts_unequal_lengths :
  ~ (forall a b : list Complex, length a <> length b ->
       Backup.composite_of [a; b] = Throw MismatchedLength)
  /\ ~ (forall a b c : list Complex, length a <> length b ->
          App.compositeWave a b c = Throw MismatchedLength).
Proof.
  assert (E : 1%nat <> 2%nat) by lia. split; intros H.
  - specialize (H [ {| r := 1; i := 0 |} ]
                  [ {| r := 2; i := 0 |}; {| r := 3; i := 0 |} ]).
    rewrite (composite_of_eq
               [ [ {| r := 1; i := 0 |} ];
                 [ {| r := 2; i := 0 |}; {| r := 3; i := 0 |} ] ]
               [ {| r := 1; i := 0 |} ] eq_refl) in H.
    cbn in H. apply H in E. discriminate E.
  - specialize (H [ {| r := 1; i := 0 |} ]
                  [ {| r := 2; i := 0 |}; {| r := 3; i := 0 |} ]
                  [ {| r := 4; i := 0 |} ]).
    rewrite compositeWave_eq in H. cbn in H. apply H in E. discriminate E.
Qed.

(** C7, amended.  Neither composition checks lengths, and neither raises
    [MismatchedLength].  The first signal fixes the length of the output:
    when some other signal is shorter than the first, the composition ends
    in the runtime's [TypeError] (a read beyond the end of that signal);
    when no other signal is shorter, it returns as many samples as the
    first signal has, also when others are longer.  The waves that
    [generateCompositeWave] composes all have [numPoints] samples, so there
    the lengths never differ. *)
Theorem composition_of_unequal_lengths
    (waves : list (list Complex)) (first : list Complex)
    (sineWave2 sineWave3 : list Complex) :
  waves !! 0%nat = Some first ->
  (Exists (fun w => (length w < length first)%nat) waves ->
   Backup.composite_of waves = Throw TypeError)
  /\ (Forall (fun w => (length first <= length w)%nat) waves ->
      exists out : list Complex,
        Backup.composite_of waves = Ok out /\ length out = length first)
  /\ ((length sineWave2 < length first)%nat
      \/ (length sineWave3 < length first)%nat ->
      App.compositeWave first sineWave2 sineWave3 = Throw TypeError)
  /\ ((length first <= length sineWave2)%nat ->
      (length first <= length sineWave3)%nat ->
      exists out : list Complex,
        App.compositeWave first sineWave2 sineWave3 = Ok out
        /\ length out = length first)
  /\ (forall (numPoints : nat) (freqs amps decays phases : list R)
             (generated : list (list Complex)),
        Backup.waves_of numPoints freqs amps decays phases = Some generated ->
        Forall (fun w => length w = numPoints) generated).
Proof.
  intros H0. repeat split.
  - intros Hex. rewrite (composite_of_eq waves first H0).
    destruct (forallb _ (seq 0 (length first))) eqn:E; [|reflexivity].
    apply all_indices_readable in E. exfalso.
    apply Exists_exists in Hex. destruct Hex as (w & Hw & Hlt).
    rewrite Forall_forall in E. specialize (E w Hw). lia.
  - intros Hall. rewrite (composite_of_eq waves first H0).
    apply all_indices_readable in Hall. rewrite Hall.
    eexists. split; [reflexivity|]. apply length_imap.
  - intros Hshort. rewrite compositeWave_eq.
    destruct (forallb _ (seq 0 (length first))) eqn:E; [|reflexivity].
    apply both_readable in E. lia.
  - intros H2 H3. rewrite compositeWave_eq.
    rewrite (proj2 (both_readable _ _ _) (conj H2 H3)).
    eexists. split; [reflexivity|]. apply length_imap.
  - intros numPoints freqs amps decays phases generated Hg.
    apply waves_of_spec in Hg. destruct Hg as [_ Hg].
    eapply Forall_impl; [exact Hg|]. cbn. intros w [Hw _]. exact Hw.
Qed.

Lemma composition_of_unequal_lengths_witness :
  Backup.composite_of
    [ [ {| r := 1; i := 0 |}; {| r := 2; i := 0 |} ]; [ {| r := 3; i := 0 |} ] ]
  = Throw TypeError
  /\ (exists out : list Complex,
        Backup.composite_of
          [ [ {| r := 1; i := 0 |} ];
            [ {| r := 2; i := 0 |}; {| r := 3; i := 0 |} ] ] = Ok out
        /\ length out = 1%nat).
Proof.
  split.
  - apply (proj1 (composition_of_unequal_lengths
             [ [ {| r := 1; i := 0 |}; {| r := 2; i := 0 |} ];
               [ {| r := 3; i := 0 |} ] ]
             [ {| r := 1; i := 0 |}; {| r := 2; i := 0 |} ] [] [] eq_refl)).
    apply Exists_cons_tl, Exists_cons_hd. cbn. lia.
  - apply (proj1 (proj2 (composition_of_unequal_lengths
             [ [ {| r := 1; i := 0 |} ];
               [ {| r := 2; i := 0 |}; {| r := 3; i := 0 |} ] ]
             [ {| r := 1; i := 0 |} ] [] [] eq_refl))).
    repeat constructor; cbn; lia.
Defined.

(** ** The loop of fft *)

Section ButterflyLoop.

Variable h : halving.
Variable N : nat.
Variables even odd : JSArray.

(** One iteration either stores its two values or throws at a read. *)
Lemma butterfly_cases (k : nat) (results : JSArray) :
  (exists e o : Complex,
     get even k = Some e /\ get odd k = Some o
     /\ butterfly h N even odd k results
        = Ok (store_upper h N k (upper N k e o)
                (<[k := Some (lower N k e o)]> results)))
  \/ ((get even k = None \/ get odd k = None)
      /\ butterfly h N even odd k results = Throw TypeError).
Proof.
  unfold butterfly, read.
  destruct (get odd k) as [o|] eqn:Ho; [|right; split; [right|]; reflexivity].
  destruct (get even k) as [e|] eqn:He; [|right; split; [left|]; reflexivity].
  left. exists e, o. repeat split; reflexivity.
Qed.

Lemma length_store_upper (k : nat) (v : Complex) (results : JSArray) :
  length (store_upper h N k v results) = length results.
Proof.
  unfold store_upper. destruct h; [|destruct (Nat.even N)];
    rewrite ?length_insert; reflexivity.
Qed.

Lemma butterfly_loop_length :
  forall (count k : nat) (results results' : JSArray),
    for_loop (butterfly h N even odd) k count results = Ok results' ->
    length results' = length results.
Proof.
  induction count as [|c IH]; intros k results results' H; cbn [for_loop] in H.
  - injection H as <-. reflexivity.
  - destruct (butterfly_cases k results)
      as [(e & o & _ & _ & E)|[_ E]]; rewrite E in H; [|discriminate].
    cbn [bind] in H. apply IH in H.
    rewrite H, length_store_upper, length_insert. reflexivity.
Qed.

Lemma butterfly_loop_exn :
  forall (count k : nat) (results : JSArray) (e : exn),
    for_loop (butterfly h N even odd) k count results = Throw e ->
    e = TypeError.
Proof.
  induction count as [|c IH]; intros k results e H; cbn [for_loop] in H.
  - discriminate.
  - destruct (butterfly_cases k results)
      as [(x & o & _ & _ & E)|[_ E]]; rewrite E in H; cbn [bind] in H.
    + eapply IH, H.
    + congruence.
Qed.

(** A read of a hole, or beyond the end, anywhere in the range of the loop
    makes it throw. *)
Lemma butterfly_loop_throw :
  forall (count k : nat) (results : JSArray) (j : nat),
    (k <= j < k + count)%nat ->
    get even j = None \/ get odd j = None ->
    for_loop (butterfly h N even odd) k count results = Throw TypeError.
Proof.
  induction count as [|c IH]; intros k results j Hj Hnone; [lia|].
  cbn [for_loop].
  destruct (butterfly_cases k results)
    as [(e & o & He & Ho & ->)|[_ ->]]; [|reflexivity].
  cbn [bind]. apply (IH _ _ j); [|exact Hnone].
  destruct (decide (j = k)) as [->|]; [|lia].
  destruct Hnone; congruence.
Qed.

(** The loop only writes the slots [j] and [j + N / 2] of its range. *)
Lemma butterfly_loop_untouched :
  forall (count k : nat) (results results' : JSArray) (idx : nat),
    for_loop (butterfly h N even odd) k count results = Ok results' ->
    (forall j, (k <= j < k + count)%nat ->
       idx <> j /\ idx <> (j + N / 2)%nat) ->
    results' !! idx = results !! idx.
Proof.
  induction count as [|c IH]; intros k results results' idx H Hidx;
    cbn [for_loop] in H.
  - injection H as <-. reflexivity.
  - destruct (butterfly_cases k results)
      as [(e & o & _ & _ & E)|[_ E]]; rewrite E in H; [|discriminate].
    cbn [bind] in H. rewrite (IH _ _ _ idx H).
    + destruct (Hidx k ltac:(lia)) as [H1 H2].
      unfold store_upper. destruct h; [|destruct (Nat.even N)];
        rewrite ?list_lookup_insert_ne by congruence; reflexivity.
    + intros j Hj. apply Hidx. lia.
Qed.

End ButterflyLoop.

Ltac compare_indices :=
  repeat match goal with
    | |- context [(?a <=? ?b)%nat] => destruct (Nat.leb_spec a b)
    | |- context [(?a <? ?b)%nat] => destruct (Nat.ltb_spec a b)
    end;
  cbn [andb orb].

Lemma lookup_tabulate (f : nat -> Complex) (n j : nat) :
  tabulate f n !! j = if (j <? n)%nat then Some (f j) else None.
Proof.
  unfold tabulate. rewrite list_lookup_fmap.
  destruct (Nat.ltb_spec j n).
  - rewrite lookup_seq_lt by assumption. reflexivity.
  - rewrite lookup_seq_ge by assumption. reflexivity.
Qed.

Lemma length_tabulate (f : nat -> Complex) (n : nat) :
  length (tabulate f n) = n.
Proof. unfold tabulate. rewrite length_fmap. apply length_seq. Qed.

Lemma nth_tabulate (f : nat -> Complex) (n j : nat) :
  (j < n)%nat -> nth j (tabulate f n) zero = f j.
Proof.
  intros Hj. rewrite nth_lookup, lookup_tabulate.
  destruct (Nat.ltb_spec j n); [reflexivity|lia].
Qed.

Lemma tabulate_ext (f g : nat -> Complex) (n : nat) :
  (forall j, (j < n)%nat -> f j = g j) -> tabulate f n = tabulate g n.
Proof.
  intros H. apply list_eq. intros j. rewrite !lookup_tabulate.
  destruct (Nat.ltb_spec j n); [rewrite H by assumption|]; reflexivity.
Qed.

(** On two arrays without holes of [M] elements each, the loop for
    [N = 2 * M] fills slot [j] with the sum and slot [j + M] with the
    difference, for every [j] of its range. *)
Lemma butterfly_loop_dense (h : halving) (M : nat) (E O : list Complex) :
  length E = M -> length O = M ->
  forall (count k : nat) (results : JSArray),
    (k + count <= M)%nat -> length results = (2 * M)%nat ->
    exists results' : JSArray,
      for_loop (butterfly h (2 * M) (dense E) (dense O)) k count results
        = Ok results'
      /\ forall idx : nat,
           results' !! idx
           = if (k <=? idx)%nat && (idx <? k + count)%nat
             then Some (Some (lower (2 * M) idx (nth idx E zero)
                                    (nth idx O zero)))
             else if (k + M <=? idx)%nat && (idx <? k + count + M)%nat
             then Some (Some (upper (2 * M) (idx - M) (nth (idx - M) E zero)
                                    (nth (idx - M) O zero)))
             else results !! idx.
Proof.
  intros HE HO. induction count as [|c IH]; intros k results Hk Hlen.
  - exists results. split; [reflexivity|]. intros idx.
    compare_indices; try lia; reflexivity.
  - cbn [for_loop].
    destruct (lookup_lt_is_Some_2 E k) as [e He]; [lia|].
    destruct (lookup_lt_is_Some_2 O k) as [o Ho]; [lia|].
    destruct (butterfly_cases h (2 * M) (dense E) (dense O) k results)
      as [(e' & o' & He' & Ho' & ->)|[Hnone _]].
    2:{ rewrite !get_dense in Hnone. destruct Hnone; congruence. }
    rewrite get_dense in He', Ho'.
    assert (e' = e) as -> by congruence.
    assert (o' = o) as -> by congruence.
    assert (HnE : nth k E zero = e) by (rewrite nth_lookup, He; reflexivity).
    assert (HnO : nth k O zero = o) by (rewrite nth_lookup, Ho; reflexivity).
    cbn [bind].
    assert (Hup : forall v (l : JSArray),
               store_upper h (2 * M) k v l = <[(k + M)%nat := Some v]> l).
    { intros v l. unfold store_upper.
      replace (2 * M / 2)%nat with M by lia.
      destruct h; [reflexivity|].
      rewrite Nat.even_mul. reflexivity. }
    rewrite Hup.
    destruct (IH (S k)
                (<[(k + M)%nat := Some (upper (2 * M) k e o)]>
                   (<[k := Some (lower (2 * M) k e o)]> results)))
      as (results' & Hloop & Hlook).
    + lia.
    + rewrite !length_insert. exact Hlen.
    + exists results'. split; [exact Hloop|]. intros idx.
      rewrite Hlook, !list_lookup_insert, !length_insert.
      destruct (decide (idx = k)) as [->|Hne1].
      * compare_indices; try lia.
        destruct (decide (_ /\ _)) as [|_]; [lia|].
        destruct (decide (_ /\ _)) as [|n]; [|lia].
        rewrite HnE, HnO. reflexivity.
      * destruct (decide (idx = (k + M)%nat)) as [->|Hne2].
        -- replace (k + M - M)%nat with k by lia.
           compare_indices; try lia.
           destruct (decide (_ /\ _)) as [|n]; [|lia].
           rewrite HnE, HnO. reflexivity.
        -- compare_indices; try lia;
             repeat (destruct (decide (_ /\ _)) as [|_]; [lia|]);
             reflexivity.
Qed.

Lemma butterfly_loop_dense_result (h : halving) (M : nat) (E O : list Complex) :
  length E = M -> length O = M ->
  for_loop (butterfly h (2 * M) (dense E) (dense O)) 0 M (new_Array (2 * M))
  = Ok (dense (tabulate
                 (fun j => if (j <? M)%nat
                           then lower (2 * M) j (nth j E zero) (nth j O zero)
                           else upper (2 * M) (j - M) (nth (j - M) E zero)
                                      (nth (j - M) O zero))
                 (2 * M))).
Proof.
  intros HE HO.
  destruct (butterfly_loop_dense h M E O HE HO M 0 (new_Array (2 * M)))
    as (results' & Hloop & Hlook).
  - lia.
  - apply length_replicate.
  - rewrite Hloop. f_equal. apply list_eq. intros idx.
    rewrite Hlook. unfold dense. rewrite list_lookup_fmap, lookup_tabulate.
    unfold new_Array.
    destruct (Nat.ltb_spec idx (2 * M)) as [Hlt|Hge].
    + cbn [Nat.add]. compare_indices; try lia; reflexivity.
    + cbn [Nat.add]. compare_indices; try lia.
      cbn. apply lookup_ge_None. rewrite length_replicate. lia.
Qed.

(** ** fft *)

(** The body of [fft], as the source has it. *)
Lemma fft_unfold (h : halving) (data : list Complex) :
  fft_by h data
  = if le_lt_dec (length data) 1 then Ok (dense data)
    else
      let N := length data in
      let* even := fft_by h (filter_index even_index data) in
      let* odd := fft_by h (filter_index odd_index data) in
      for_loop (butterfly h N even odd) 0%nat (trips h N) (new_Array N).
Proof.
  rewrite fft_by_equation_1.
  destruct (le_lt_dec (length data) 1); reflexivity.
Qed.

Lemma pow2_pos (m : nat) : (1 <= 2 ^ m)%nat.
Proof. induction m; cbn; lia. Qed.

(** On a signal of [2 ^ m] samples both versions of [fft] return the array,
    without holes, of the [2 ^ m] coefficients of the recurrence. *)
Lemma fft_by_power_of_two (h : halving) :
  forall (m : nat) (data : list Complex),
    length data = (2 ^ m)%nat ->
    fft_by h data = Ok (dense (tabulate (coefficient m data) (2 ^ m))).
Proof.
  induction m as [|m IH]; intros data Hlen; rewrite fft_unfold.
  - destruct (le_lt_dec (length data) 1) as [_|Hgt]; [|cbn in Hlen; lia].
    destruct data as [|x [|y t]]; try discriminate Hlen. reflexivity.
  - pose proof (pow2_pos m) as Hpos.
    rewrite Nat.pow_succ_r' in Hlen.
    destruct (le_lt_dec (length data) 1) as [Hle|_]; [lia|].
    cbv zeta.
    rewrite (IH (filter_index even_index data))
      by (rewrite length_filter_even; lia).
    rewrite (IH (filter_index odd_index data))
      by (rewrite length_filter_odd; lia).
    cbn [bind].
    replace (trips h (length data)) with (2 ^ m)%nat
      by (rewrite Hlen; destruct h; cbn [trips]; lia).
    rewrite Hlen, butterfly_loop_dense_result by apply length_tabulate.
    rewrite Nat.pow_succ_r'. do 2 f_equal. apply tabulate_ext.
    intros j Hj. cbn [coefficient]. rewrite Nat.pow_succ_r'.
    destruct (Nat.ltb_spec j (2 ^ m)).
    + rewrite !nth_tabulate by lia. reflexivity.
    + rewrite !nth_tabulate by lia. reflexivity.
Qed.

(** C4.  For every power of two [N] and every signal of [N] samples, [fft]
    (of the current component, and of the backup alike) returns exactly [N]
    coefficients: an array of length [N] without holes. *)
Theorem fft_returns_N_coefficients (data : list Complex) :
  is_power_of_two (length data) ->
  exists X : list Complex,
    App.fft data = Ok (dense X)
    /\ Backup.fft data = Ok (dense X)
    /\ length X = length data
    /\ length (dense X) = length data.
Proof.
  intros [m Hm]. exists (tabulate (coefficient m data) (2 ^ m)).
  split; [apply fft_by_power_of_two; exact Hm|].
  split; [apply fft_by_power_of_two; exact Hm|].
  unfold dense. rewrite length_fmap, length_tabulate. split; congruence.
Qed.

Lemma fft_returns_N_coefficients_witness :
  exists X : list Complex,
    App.fft [ {| r := 1; i := 0 |}; {| r := 2; i := 0 |};
              {| r := 3; i := 0 |}; {| r := 4; i := 0 |} ] = Ok (dense X)
    /\ length X = 4%nat.
Proof.
  destruct (fft_returns_N_coefficients
              [ {| r := 1; i := 0 |}; {| r := 2; i := 0 |};
                {| r := 3; i := 0 |}; {| r := 4; i := 0 |} ])
    as (X & HX & _ & HL & _).
  - exists 2%nat. reflexivity.
  - exists X. split; assumption.
Defined.

(** *** Lengths that are not powers of two *)

Lemma fft_by_exn (h : halving) (data : list Complex) (e : exn) :
  fft_by h data = Throw e -> e = TypeError.
Proof.
  remember (length data) as n eqn:Hn. revert data Hn e.
  induction n as [n IH] using lt_wf_ind. intros data Hn e.
  rewrite fft_unfold. destruct (le_lt_dec (length data) 1) as [|Hgt];
    [discriminate|]. cbv zeta.
  destruct (fft_by h (filter_index even_index data)) as [even|e1] eqn:Ee.
  2:{ cbn [bind]. intros [= <-]. eapply (IH _ _ _ eq_refl), Ee. }
  destruct (fft_by h (filter_index odd_index data)) as [odd|e2] eqn:Eo.
  2:{ cbn [bind]. intros [= <-]. eapply (IH _ _ _ eq_refl), Eo. }
  cbn [bind]. apply butterfly_loop_exn.
  Unshelve.
  - rewrite length_filter_even. lia.
  - rewrite length_filter_odd. lia.
Qed.

Lemma fft_by_length (h : halving) (data : list Complex) (X : JSArray) :
  fft_by h data = Ok X -> length X = length data.
Proof.
  rewrite fft_unfold. destruct (le_lt_dec (length data) 1) as [|Hgt].
  - intros [= <-]. unfold dense. apply length_fmap.
  - cbv zeta.
    destruct (fft_by h (filter_index even_index data)); [|discriminate].
    destruct (fft_by h (filter_index odd_index data)); [|discriminate].
    cbn [bind]. intros H. apply butterfly_loop_length in H.
    rewrite H. apply length_replicate.
Qed.

Lemma power_of_two_double (q : nat) :
  is_power_of_two q -> is_power_of_two (2 * q).
Proof. intros [m ->]. exists (S m). rewrite Nat.pow_succ_r'. reflexivity. Qed.

(** On a signal whose length is neither zero nor a power of two, [fft]
    ends in [TypeError]; the one exception is the backup version on an odd
    length, which may instead return an array whose last slot is a hole. *)
Lemma fft_by_non_power_of_two (h : halving) (data : list Complex) :
  length data <> 0%nat -> ~ is_power_of_two (length data) ->
  fft_by h data = Throw TypeError
  \/ (h = FloorHalf /\ Nat.odd (length data) = true
      /\ exists X : JSArray,
           fft_by h data = Ok X
           /\ length X = length data
           /\ X !! (length data - 1)%nat = Some None).
Proof.
  remember (length data) as n eqn:Hn. revert data Hn.
  induction n as [n IH] using lt_wf_ind. intros data Hn Hn0 Hnp.
  assert (Hn1 : n <> 1%nat) by (intros ->; apply Hnp; exists 0%nat; reflexivity).
  destruct (fft_by h data) as [X|e] eqn:Hfft.
  2:{ left. f_equal. eapply fft_by_exn, Hfft. }
  pose proof (fft_by_length _ _ _ Hfft) as HlenX.
  rewrite fft_unfold in Hfft.
  destruct (le_lt_dec (length data) 1) as [|Hgt]; [lia|]. cbv zeta in Hfft.
  destruct (fft_by h (filter_index even_index data)) as [even|] eqn:Ee;
    [|discriminate].
  destruct (fft_by h (filter_index odd_index data)) as [odd|] eqn:Eo;
    [|discriminate].
  cbn [bind] in Hfft.
  pose proof (fft_by_length _ _ _ Eo) as Hlo. rewrite length_filter_odd in Hlo.
  rewrite <- Hn in *.
  destruct (Nat.even n) eqn:Hev.
  - (* even length: the odd half has a length that is no power of two *)
    exfalso. apply Nat.even_spec in Hev. destruct Hev as [q ->].
    assert (Hq : (q < 2 * q)%nat) by lia.
    destruct (IH q Hq (filter_index odd_index data)) as [Ht|(_ & _ & O & HO & _ & Hlast)].
    + rewrite length_filter_odd, <- Hn. lia.
    + lia.
    + intros Hp. apply Hnp, power_of_two_double, Hp.
    + congruence.
    + assert (O = odd) as -> by congruence.
      rewrite (butterfly_loop_throw h (2 * q) even odd (trips h (2 * q)) 0
                 (new_Array (2 * q)) (q - 1)) in Hfft; [discriminate| |].
      * destruct h; cbn [trips]; lia.
      * right. unfold get.
        replace (2 * q / 2 - 1)%nat with (q - 1)%nat in Hlast by lia.
        rewrite Hlast. reflexivity.
  - (* odd length *)
    assert (Hodd : Nat.odd n = true) by (rewrite <- Nat.negb_even, Hev; reflexivity).
    apply Nat.odd_spec in Hodd as Hq. destruct Hq as [q Hq].
    destruct h.
    + right. split; [reflexivity|]. split; [exact Hodd|].
      exists X. split; [reflexivity|]. split; [exact HlenX|].
      rewrite (butterfly_loop_untouched _ _ _ _ _ _ _ _ (n - 1) Hfft).
      * unfold new_Array. apply lookup_replicate_2. lia.
      * cbn [trips]. intros j Hj. lia.
    + exfalso.
      rewrite (butterfly_loop_throw ExactHalf n even odd (trips ExactHalf n) 0
                 (new_Array n) q) in Hfft; [discriminate| |].
      * cbn [trips]. lia.
      * right. unfold get.
        rewrite (proj2 (lookup_ge_None odd q)) by lia. reflexivity.
Qed.

(** The empty signal is returned as it is. *)
Lemma fft_by_empty (h : halving) : fft_by h [] = Ok [].
Proof. rewrite fft_unfold. reflexivity. Qed.

Lemma not_power_of_two_100 : ~ is_power_of_two 100.
Proof.
  intros [m H].
  do 7 (destruct m as [|m]; [cbn in H; lia|]).
  rewrite !Nat.pow_succ_r' in H. pose proof (pow2_pos m). lia.
Qed.

Lemma not_power_of_two_3 : ~ is_power_of_two 3.
Proof.
  intros [m H].
  do 2 (destruct m as [|m]; [cbn in H; lia|]).
  rewrite !Nat.pow_succ_r' in H. pose proof (pow2_pos m). lia.
Qed.

(** The backup version on three samples returns without an error: an array
    of three slots whose last one is a hole. *)
Example Backup_fft_three_samples (x0 x1 x2 : Complex) :
  exists c0 c1 : Complex, Backup.fft [x0; x1; x2] = Ok [Some c0; Some c1; None].
Proof.
  unfold Backup.fft. rewrite fft_unfold. cbn [length le_lt_dec].
  destruct (le_lt_dec 3 1) as [|_]; [lia|]. cbv zeta.
  change (filter_index even_index [x0; x1; x2]) with [x0; x2].
  change (filter_index odd_index [x0; x1; x2]) with [x1].
  rewrite (fft_by_power_of_two FloorHalf 1 [x0; x2] eq_refl).
  rewrite (fft_by_power_of_two FloorHalf 0 [x1] eq_refl).
  cbn [bind]. eexists _, _. reflexivity.
Qed.

(** C1, as stated, fails in both components: on a signal of 100 samples
    [fft] does not raise [InvalidLength]. *)
Lemma fft_does_not_raise_InvalidLength :
  ~ (forall data : list Complex,
       ~ is_power_of_two (length data) -> App.fft data = Throw InvalidLength)
  /\ ~ (forall data : list Complex,
          ~ is_power_of_two (length data) ->
          Backup.fft data = Throw InvalidLength).
Proof.
  assert (Hlen : length (replicate 100 zero) = 100%nat)
    by apply length_replicate.
  split; intros H; specialize (H (replicate 100 zero));
    rewrite Hlen in H; specialize (H not_power_of_two_100).
  - destruct (fft_by_non_power_of_two ExactHalf (replicate 100 zero))
      as [Ht|(Hh & _)].
    + rewrite Hlen. lia.
    + rewrite Hlen. exact not_power_of_two_100.
    + unfold App.fft in H. congruence.
    + discriminate Hh.
  - destruct (fft_by_non_power_of_two FloorHalf (replicate 100 zero))
      as [Ht|(_ & Hodd & _)].
    + rewrite Hlen. lia.
    + rewrite Hlen. exact not_power_of_two_100.
    + unfold Backup.fft in H. congruence.
    + rewrite Hlen in Hodd. discriminate Hodd.
Qed.

(** C1, amended.  [fft] does not validate the length of its input and has
    no [InvalidLength] error.  On every signal whose length is neither zero
    nor a power of two, the current version ends in the runtime's
    [TypeError] (a read of an undefined element); the backup version ends
    in [TypeError] too, or, on some odd lengths, returns an array whose
    last slot is a hole.  On a signal of 100 samples both versions end in
    [TypeError]. *)
Theorem fft_on_non_power_of_two (data : list Complex) :
  length data <> 0%nat -> ~ is_power_of_two (length data) ->
  App.fft data = Throw TypeError
  /\ (Backup.fft data = Throw TypeError
      \/ (Nat.odd (length data) = true
          /\ exists X : JSArray,
               Backup.fft data = Ok X
               /\ length X = length data
               /\ X !! (length data - 1)%nat = Some None))
  /\ (length data = 100%nat -> Backup.fft data = Throw TypeError).
Proof.
  intros H0 Hnp. repeat split.
  - destruct (fft_by_non_power_of_two ExactHalf data H0 Hnp)
      as [Ht|(Hh & _)]; [exact Ht|discriminate Hh].
  - destruct (fft_by_non_power_of_two FloorHalf data H0 Hnp)
      as [Ht|(_ & Hodd & HX)]; [left; exact Ht|right; split; assumption].
  - intros H100.
    destruct (fft_by_non_power_of_two FloorHalf data H0 Hnp)
      as [Ht|(_ & Hodd & _)]; [exact Ht|].
    rewrite H100 in Hodd. discriminate Hodd.
Qed.

Lemma fft_on_non_power_of_two_witness :
  App.fft (replicate 100 zero) = Throw TypeError
  /\ Backup.fft (replicate 100 zero) = Throw TypeError.
Proof.
  assert (Hlen : length (replicate 100 zero) = 100%nat)
    by apply length_replicate.
  destruct (fft_on_non_power_of_two (replicate 100 zero)) as (HA & _ & HB).
  - rewrite Hlen. lia.
  - rewrite Hlen. exact not_power_of_two_100.
  - split; [exact HA | exact (HB Hlen)].
Defined.

(** *** Conjugate symmetry for real-valued input *)

Lemma twiddle_0 (N : nat) : twiddle N 0 = {| r := 1; i := 0 |}.
Proof.
  unfold twiddle. cbn [INR].
  replace (-2 * PI * 0 / INR N) with 0 by (unfold Rdiv; ring).
  rewrite cos_0, sin_0. reflexivity.
Qed.

(** [exp(-2πi(M-k)/2M) = - conjugate (exp(-2πik/2M))]. *)
Lemma twiddle_mirror (M k : nat) :
  (0 < M)%nat -> (k <= M)%nat ->
  (twiddle (2 * M) (M - k)).(r) = - (twiddle (2 * M) k).(r)
  /\ (twiddle (2 * M) (M - k)).(i) = (twiddle (2 * M) k).(i).
Proof.
  intros HM Hk. unfold twiddle. cbn [r i].
  assert (HM' : INR M <> 0) by (apply not_0_INR; lia).
  replace (-2 * PI * INR (M - k) / INR (2 * M))
    with (- (-2 * PI * INR k / INR (2 * M) + PI)).
  - rewrite cos_neg, sin_neg, neg_cos, neg_sin. split; ring.
  - rewrite minus_INR, mult_INR by exact Hk.
    change (INR 2) with (1 + 1). field. exact HM'.
Qed.

Lemma upper_mirror (M k : nat) (e o : Complex) :
  (0 < M)%nat -> (k <= M)%nat ->
  upper (2 * M) (M - k) (conjugate e) (conjugate o)
  = conjugate (lower (2 * M) k e o).
Proof.
  intros HM Hk. destruct (twiddle_mirror M k HM Hk) as [Hr Hi].
  unfold upper, lower, conjugate. cbn [r i]. rewrite Hr, Hi.
  f_equal; ring.
Qed.

Lemma lower_mirror (M k : nat) (e o : Complex) :
  (0 < M)%nat -> (k <= M)%nat ->
  lower (2 * M) (M - k) (conjugate e) (conjugate o)
  = conjugate (upper (2 * M) k e o).
Proof.
  intros HM Hk. destruct (twiddle_mirror M k HM Hk) as [Hr Hi].
  unfold upper, lower, conjugate. cbn [r i]. rewrite Hr, Hi.
  f_equal; ring.
Qed.

Lemma Forall_filter_from {A : Type} (P : A -> Prop) (p : nat -> bool)
    (l : list A) :
  Forall P l -> forall k, Forall P (filter_from p k l).
Proof.
  induction 1 as [|x t Hx _ IH]; intros k; cbn [filter_from].
  - constructor.
  - destruct (p k); [constructor; [exact Hx|]|]; apply IH.
Qed.

Lemma conjugate_real (c : Complex) : c.(i) = 0 -> conjugate c = c.
Proof.
  destruct c as [cr ci]. cbn. intros ->. unfold conjugate. cbn.
  f_equal. ring.
Qed.

(** For real-valued input of [2 ^ m] samples, coefficient 0 is real and
    coefficient [2 ^ m - k] is the conjugate of coefficient [k], for every
    [k] from 1 to [2 ^ m - 1]. *)
Lemma coefficient_conjugate_symmetry :
  forall (m : nat) (data : list Complex),
    length data = (2 ^ m)%nat -> real_valued data ->
    (coefficient m data 0).(i) = 0
    /\ forall k : nat, (1 <= k < 2 ^ m)%nat ->
       coefficient m data (2 ^ m - k) = conjugate (coefficient m data k).
Proof.
  induction m as [|m IH]; intros data Hlen Hreal.
  - destruct data as [|x [|y t]]; try discriminate Hlen.
    split; [|cbn; intros k Hk; lia].
    cbn. inversion Hreal; assumption.
  - pose proof (pow2_pos m) as Hpos.
    rewrite Nat.pow_succ_r' in Hlen.
    destruct (IH (filter_index even_index data)) as [HE0 HE].
    { rewrite length_filter_even. lia. }
    { apply Forall_filter_from, Hreal. }
    destruct (IH (filter_index odd_index data)) as [HO0 HO].
    { rewrite length_filter_odd. lia. }
    { apply Forall_filter_from, Hreal. }
    cbn [coefficient]. rewrite !Nat.pow_succ_r'.
    set (M := (2 ^ m)%nat) in *.
    set (E := coefficient m (filter_index even_index data)) in *.
    set (O := coefficient m (filter_index odd_index data)) in *.
    split.
    + destruct (Nat.ltb_spec 0 M); [|lia].
      unfold lower. rewrite twiddle_0. cbn [r i]. rewrite HE0, HO0. ring.
    + intros k Hk.
      destruct (Nat.ltb_spec k M) as [HkM|HkM].
      * destruct (Nat.ltb_spec (2 * M - k) M); [lia|].
        replace (2 * M - k - M)%nat with (M - k)%nat by lia.
        rewrite HE, HO by lia. apply upper_mirror; lia.
      * destruct (decide (k = M)) as [->|Hne].
        -- replace (2 * M - M)%nat with M by lia.
           destruct (Nat.ltb_spec M M); [lia|].
           symmetry. apply conjugate_real.
           replace (M - M)%nat with 0%nat by lia.
           unfold upper. rewrite twiddle_0. cbn [r i]. rewrite HE0, HO0. ring.
        -- destruct (Nat.ltb_spec (2 * M - k) M); [|lia].
           replace (2 * M - k)%nat with (M - (k - M))%nat by lia.
           rewrite HE, HO by lia. apply lower_mirror; lia.
Qed.

(** C2.  For every real-valued signal of power-of-two length [N], the
    output of [fft] (in both components) is conjugate-symmetric: for each
    [k] in [[1, N/2)], coefficient [N - k] is the complex conjugate of
    coefficient [k]. *)
Theorem fft_conjugate_symmetry (data : list Complex) :
  is_power_of_two (length data) -> real_valued data ->
  exists X : list Complex,
    App.fft data = Ok (dense X)
    /\ Backup.fft data = Ok (dense X)
    /\ length X = length data
    /\ forall (k : nat) (c : Complex),
         (1 <= k < length data / 2)%nat ->
         X !! k = Some c ->
         X !! (length data - k)%nat = Some (conjugate c).
Proof.
  intros [m Hm] Hreal. exists (tabulate (coefficient m data) (2 ^ m)).
  split; [apply fft_by_power_of_two; exact Hm|].
  split; [apply fft_by_power_of_two; exact Hm|].
  split; [rewrite length_tabulate; congruence|].
  intros k c Hk. rewrite Hm in *. rewrite !lookup_tabulate.
  assert (H2 : (2 ^ m / 2 <= 2 ^ m)%nat) by lia.
  destruct (Nat.ltb_spec k (2 ^ m)); [|lia].
  destruct (Nat.ltb_spec (2 ^ m - k) (2 ^ m)); [|lia].
  intros [= <-]. f_equal.
  apply (coefficient_conjugate_symmetry m data Hm Hreal). lia.
Qed.

Lemma fft_conjugate_symmetry_witness :
  exists X : list Complex,
    App.fft [ {| r := 1; i := 0 |}; {| r := 2; i := 0 |};
              {| r := 3; i := 0 |}; {| r := 4; i := 0 |} ] = Ok (dense X)
    /\ forall c : Complex,
         X !! 1%nat = Some c -> X !! 3%nat = Some (conjugate c).
Proof.
  destruct (fft_conjugate_symmetry
              [ {| r := 1; i := 0 |}; {| r := 2; i := 0 |};
                {| r := 3; i := 0 |}; {| r := 4; i := 0 |} ])
    as (X & HX & _ & _ & Hsym).
  - exists 2%nat. reflexivity.
  - repeat constructor.
  - exists X. split; [exact HX|]. intros c Hc.
    apply (Hsym 1%nat c); [cbn; lia|exact Hc].
Defined.

(** *** Linearity *)

Lemma butterfly_ok h N (even odd : JSArray) k (results : JSArray) e o :
  get even k = Some e -> get odd k = Some o ->
  butterfly h N even odd k results
  = Ok (store_upper h N k (upper N k e o)
          (<[k := Some (lower N k e o)]> results)).
Proof.
  intros He Ho.
  destruct (butterfly_cases h N even odd k results)
    as [(e' & o' & He' & Ho' & ->)|[[Hn|Hn] _]]; congruence.
Qed.

Lemma butterfly_throw h N (even odd : JSArray) k (results : JSArray) :
  get even k = None \/ get odd k = None ->
  butterfly h N even odd k results = Throw TypeError.
Proof.
  intros Hn.
  destruct (butterfly_cases h N even odd k results)
    as [(e' & o' & He' & Ho' & _)|[_ ->]]; [|reflexivity].
  destruct Hn; congruence.
Qed.

Lemma get_add_arrays (A B : JSArray) (k : nat) :
  get (add_arrays A B) k
  = match get A k, get B k with
    | Some x, Some y => Some (add x y)
    | _, _ => None
    end.
Proof.
  unfold get, add_arrays. rewrite lookup_zip_with.
  destruct (A !! k) as [[x|]|], (B !! k) as [[y|]|]; reflexivity.
Qed.

Lemma shape_get (A B : JSArray) (k : nat) :
  shape A = shape B ->
  match get A k with
  | Some _ => exists y, get B k = Some y
  | None => get B k = None
  end.
Proof.
  intros H. apply (f_equal (fun l => l !! k)) in H.
  unfold shape in H. rewrite !list_lookup_fmap in H. unfold get.
  destruct (A !! k) as [[x|]|], (B !! k) as [[y|]|];
    try discriminate H; eauto.
Qed.

Lemma lower_add (N k : nat) (e e' o o' : Complex) :
  lower N k (add e e') (add o o') = add (lower N k e o) (lower N k e' o').
Proof. unfold lower, add. cbn [r i]. f_equal; ring. Qed.

Lemma upper_add (N k : nat) (e e' o o' : Complex) :
  upper N k (add e e') (add o o') = add (upper N k e o) (upper N k e' o').
Proof. unfold upper, add. cbn [r i]. f_equal; ring. Qed.

Lemma insert_add_arrays (A B : JSArray) (k : nat) (x y : Complex) :
  <[k := Some (add x y)]> (add_arrays A B)
  = add_arrays (<[k := Some x]> A) (<[k := Some y]> B).
Proof.
  unfold add_arrays. rewrite <- insert_zip_with. reflexivity.
Qed.

Lemma store_upper_add h N k (x y : Complex) (A B : JSArray) :
  store_upper h N k (add x y) (add_arrays A B)
  = add_arrays (store_upper h N k x A) (store_upper h N k y B).
Proof.
  unfold store_upper. destruct h; [|destruct (Nat.even N)];
    rewrite ?insert_add_arrays; reflexivity.
Qed.

Lemma shape_insert (A B : JSArray) (k : nat) (x y : Complex) :
  shape A = shape B ->
  shape (<[k := Some x]> A) = shape (<[k := Some y]> B).
Proof.
  unfold shape. intros H. rewrite !list_fmap_insert, H. reflexivity.
Qed.

Lemma shape_store_upper h N k (x y : Complex) (A B : JSArray) :
  shape A = shape B ->
  shape (store_upper h N k x A) = shape (store_upper h N k y B).
Proof.
  intros H. unfold store_upper. destruct h; [|destruct (Nat.even N)];
    auto using shape_insert.
Qed.

(** The loop on the sums of two pairs of arrays of equal shapes: it throws
    when the loops on the summands throw, and otherwise returns the sum of
    their results. *)
Lemma butterfly_loop_add h N (ea eb oa ob : JSArray) :
  shape ea = shape eb -> shape oa = shape ob ->
  forall (count k : nat) (ra rb : JSArray),
    shape ra = shape rb ->
    outcome_shape (for_loop (butterfly h N ea oa) k count ra)
    = outcome_shape (for_loop (butterfly h N eb ob) k count rb)
    /\ for_loop (butterfly h N (add_arrays ea eb) (add_arrays oa ob))
         k count (add_arrays ra rb)
       = add_results (for_loop (butterfly h N ea oa) k count ra)
                     (for_loop (butterfly h N eb ob) k count rb).
Proof.
  intros Hse Hso. induction count as [|c IH]; intros k ra rb Hsr.
  - cbn. rewrite Hsr. split; reflexivity.
  - cbn [for_loop].
    pose proof (shape_get ea eb k Hse) as Hge.
    pose proof (shape_get oa ob k Hso) as Hgo.
    destruct (get ea k) as [e|] eqn:Hea.
    2:{ rewrite (butterfly_throw h N ea oa) by (left; exact Hea).
        rewrite (butterfly_throw h N eb ob) by (left; exact Hge).
        rewrite (butterfly_throw h N (add_arrays ea eb))
          by (left; rewrite get_add_arrays, Hea; reflexivity).
        split; reflexivity. }
    destruct (get oa k) as [o|] eqn:Hoa.
    2:{ rewrite (butterfly_throw h N ea oa) by (right; exact Hoa).
        rewrite (butterfly_throw h N eb ob) by (right; exact Hgo).
        rewrite (butterfly_throw h N (add_arrays ea eb))
          by (right; rewrite get_add_arrays, Hoa; reflexivity).
        split; reflexivity. }
    destruct Hge as [e' Heb]. destruct Hgo as [o' Hob].
    rewrite (butterfly_ok h N ea oa k ra e o Hea Hoa).
    rewrite (butterfly_ok h N eb ob k rb e' o' Heb Hob).
    rewrite (butterfly_ok h N (add_arrays ea eb) (add_arrays oa ob) k
               (add_arrays ra rb) (add e e') (add o o'))
      by (rewrite get_add_arrays; first [rewrite Hea, Heb | rewrite Hoa, Hob];
          reflexivity).
    cbn [bind].
    rewrite lower_add, upper_add, insert_add_arrays, store_upper_add.
    apply IH. apply shape_store_upper, shape_insert, Hsr.
Qed.

Lemma filter_from_zip_with {A B C : Type} (f : A -> B -> C)
    (p : nat -> bool) (a : list A) :
  forall (b : list B) (k : nat),
    length a = length b ->
    filter_from p k (zip_with f a b)
    = zip_with f (filter_from p k a) (filter_from p k b).
Proof.
  induction a as [|x a IH]; intros [|y b] k Hlen; try discriminate Hlen.
  - reflexivity.
  - cbn [zip_with filter_from]. injection Hlen as Hlen.
    destruct (p k); cbn [zip_with]; rewrite IH by exact Hlen; reflexivity.
Qed.

Lemma dense_add_signals (a b : list Complex) :
  dense (add_signals a b) = add_arrays (dense a) (dense b).
Proof.
  unfold dense, add_signals, add_arrays. revert b.
  induction a as [|x a IH]; intros [|y b]; cbn; try reflexivity.
  f_equal. apply IH.
Qed.

Lemma shape_dense (a : list Complex) :
  shape (dense a) = replicate (length a) true.
Proof.
  unfold shape, dense. induction a as [|x a IH]; [reflexivity|].
  cbn. f_equal. exact IH.
Qed.

Lemma add_arrays_new_Array (N : nat) :
  add_arrays (new_Array N) (new_Array N) = new_Array N.
Proof.
  unfold add_arrays, new_Array. induction N as [|N IH]; [reflexivity|].
  cbn. f_equal. exact IH.
Qed.

(** [fft] of the sum of two signals of equal length is the sum of the
    outcomes of [fft] on each, and those two outcomes have the same
    shape. *)
Lemma fft_by_add (h : halving) :
  forall (n : nat) (a b : list Complex),
    length a = n -> length b = n ->
    outcome_shape (fft_by h a) = outcome_shape (fft_by h b)
    /\ fft_by h (add_signals a b)
       = add_results (fft_by h a) (fft_by h b).
Proof.
  induction n as [n IH] using lt_wf_ind. intros a b Ha Hb.
  assert (Hab : length (add_signals a b) = n).
  { unfold add_signals. rewrite length_zip_with. lia. }
  rewrite (fft_unfold h a), (fft_unfold h b),
    (fft_unfold h (add_signals a b)), Hab, Ha, Hb.
  destruct (le_lt_dec n 1) as [Hle|Hgt].
  - cbn [outcome_shape add_results]. rewrite !shape_dense, Ha, Hb.
    rewrite dense_add_signals. split; reflexivity.
  - cbv zeta. unfold add_signals at 1 2, filter_index.
    rewrite !filter_from_zip_with by congruence.
    fold (filter_index even_index a) (filter_index even_index b)
         (filter_index odd_index a) (filter_index odd_index b).
    fold (add_signals (filter_index even_index a) (filter_index even_index b)).
    fold (add_signals (filter_index odd_index a) (filter_index odd_index b)).
    destruct (IH ((n + 1) / 2)%nat ltac:(lia)
                (filter_index even_index a) (filter_index even_index b))
      as [Hse ->]; [rewrite length_filter_even; congruence ..|].
    destruct (IH (n / 2)%nat ltac:(lia)
                (filter_index odd_index a) (filter_index odd_index b))
      as [Hso ->]; [rewrite length_filter_odd; congruence ..|].
    destruct (fft_by h (filter_index even_index a)) as [Ea|e1],
             (fft_by h (filter_index even_index b)) as [Eb|e1'];
      cbn [outcome_shape] in Hse; try discriminate Hse;
      cbn [add_results bind]; [|split; [exact Hse|reflexivity]].
    destruct (fft_by h (filter_index odd_index a)) as [Oa|e2],
             (fft_by h (filter_index odd_index b)) as [Ob|e2'];
      cbn [outcome_shape] in Hso; try discriminate Hso;
      cbn [add_results bind]; [|split; [exact Hso|reflexivity]].
    injection Hse as Hse. injection Hso as Hso.
    rewrite <- (add_arrays_new_Array n) at 3.
    apply butterfly_loop_add; [exact Hse|exact Hso|reflexivity].
Qed.

(** C3.  For every pair of signals [a] and [b] of equal length, [fft] of
    the elementwise sum is the elementwise sum of [fft a] and [fft b],
    exactly over the reals, in both components.  On a power-of-two length
    all three transforms return full arrays of coefficients; on any other
    length the three outcomes have the same holes or the same exception. *)
Theorem fft_linear (a b : list Complex) :
  length a = length b ->
  App.fft (add_signals a b) = add_results (App.fft a) (App.fft b)
  /\ Backup.fft (add_signals a b)
     = add_results (Backup.fft a) (Backup.fft b)
  /\ (is_power_of_two (length a) ->
      exists A B : list Complex,
        length A = length a /\ length B = length a
        /\ App.fft a = Ok (dense A) /\ App.fft b = Ok (dense B)
        /\ App.fft (add_signals a b) = Ok (dense (add_signals A B))
        /\ Backup.fft a = Ok (dense A) /\ Backup.fft b = Ok (dense B)
        /\ Backup.fft (add_signals a b) = Ok (dense (add_signals A B))).
Proof.
  intros Hlen.
  destruct (fft_by_add ExactHalf (length a) a b eq_refl (eq_sym Hlen))
    as [_ HApp].
  destruct (fft_by_add FloorHalf (length a) a b eq_refl (eq_sym Hlen))
    as [_ HBackup].
  split; [exact HApp|]. split; [exact HBackup|].
  intros [m Hm].
  exists (tabulate (coefficient m a) (2 ^ m)),
         (tabulate (coefficient m b) (2 ^ m)).
  unfold App.fft, Backup.fft in *.
  rewrite HApp, HBackup.
  rewrite !(fft_by_power_of_two _ m a Hm).
  rewrite !(fft_by_power_of_two _ m b) by congruence.
  cbn [add_results]. rewrite <- dense_add_signals, !length_tabulate.
  repeat split; congruence.
Qed.

Lemma fft_linear_witness :
  App.fft (add_signals [ {| r := 1; i := 2 |}; {| r := 3; i := 4 |} ]
                       [ {| r := 5; i := 6 |}; {| r := 7; i := 8 |} ])
  = add_results (App.fft [ {| r := 1; i := 2 |}; {| r := 3; i := 4 |} ])
                (App.fft [ {| r := 5; i := 6 |}; {| r := 7; i := 8 |} ]).
Proof.
  apply (fft_linear [ {| r := 1; i := 2 |}; {| r := 3; i := 4 |} ]
                    [ {| r := 5; i := 6 |}; {| r := 7; i := 8 |} ]).
  reflexivity.
Defined.

(** * The discrete Fourier transform computed by fft *)

(** Complex product, the unit complex number of argument [theta], and a
    real multiple. *)
Definition Cmul (x y : Complex) : Complex :=
  {| r := x.(r) * y.(r) - x.(i) * y.(i);
     i := x.(i) * y.(r) + x.(r) * y.(i) |}.

Definition cis (theta : R) : Complex := {| r := cos theta; i := sin theta |}.

Definition Cscale (c : R) (x : Complex) : Complex :=
  {| r := c * x.(r); i := c * x.(i) |}.

(** [Σ f(n, l[n - k])] over the elements of [l], the first of which has
    index [k]. *)
Fixpoint wsum (f : nat -> Complex -> Complex) (k : nat) (l : list Complex)
    : Complex :=
  match l with
  | [] => zero
  | x :: t => add (f k x) (wsum f (S k) t)
  end.

(** Coefficient [k] of the discrete Fourier transform of [data]:
    [Σ data[n] · exp(-2πi·k·n/N)] with [N] the length of [data]. *)
Definition dft (data : list Complex) (k : nat) : Complex :=
  wsum (fun n x =>
          Cmul (cis (-2 * PI * INR k * INR n / INR (length data))) x)
       0 data.

Lemma add_assoc (x y z : Complex) : add x (add y z) = add (add x y) z.
Proof. unfold add. cbn [r i]. f_equal; ring. Qed.

Lemma add_comm (x y : Complex) : add x y = add y x.
Proof. unfold add. cbn [r i]. f_equal; ring. Qed.

Lemma add_zero_r (x : Complex) : add x zero = x.
Proof. destruct x. unfold add, zero. cbn [r i]. f_equal; ring. Qed.

Lemma add_zero_l (x : Complex) : add zero x = x.
Proof. rewrite add_comm. apply add_zero_r. Qed.

Lemma Cmul_add_r (c x y : Complex) :
  Cmul c (add x y) = add (Cmul c x) (Cmul c y).
Proof. unfold Cmul, add. cbn [r i]. f_equal; ring. Qed.

Lemma Cmul_zero_r (c : Complex) : Cmul c zero = zero.
Proof. unfold Cmul, zero. cbn [r i]. f_equal; ring. Qed.

Lemma Cmul_assoc (x y z : Complex) : Cmul x (Cmul y z) = Cmul (Cmul x y) z.
Proof. unfold Cmul. cbn [r i]. f_equal; ring. Qed.

Lemma cis_plus (a b : R) : cis (a + b) = Cmul (cis a) (cis b).
Proof.
  unfold cis, Cmul. cbn [r i]. rewrite cos_plus, sin_plus. f_equal; ring.
Qed.

Lemma cis_0 : cis 0 = {| r := 1; i := 0 |}.
Proof. unfold cis. rewrite cos_0, sin_0. reflexivity. Qed.

Lemma Cmul_one_l (x : Complex) : Cmul {| r := 1; i := 0 |} x = x.
Proof. destruct x. unfold Cmul. cbn [r i]. f_equal; ring. Qed.

(** [exp] is periodic: whole turns do not change it. *)
Lemma cis_turns (theta : R) (n : nat) :
  cis (theta - 2 * INR n * PI) = cis theta.
Proof.
  unfold cis.
  rewrite <- (cos_period (theta - 2 * INR n * PI) n).
  rewrite <- (sin_period (theta - 2 * INR n * PI) n).
  replace (theta - 2 * INR n * PI + 2 * INR n * PI) with theta by ring.
  reflexivity.
Qed.

Lemma cis_half_turn (theta : R) :
  cis (theta - PI) = Cscale (-1) (cis theta).
Proof.
  unfold cis, Cscale. cbn [r i].
  replace (theta - PI) with (- (- theta + PI)) by ring.
  rewrite cos_neg, sin_neg, neg_cos, neg_sin, cos_neg, sin_neg.
  f_equal; ring.
Qed.

Lemma wsum_ext (f g : nat -> Complex -> Complex) (l : list Complex) :
  forall k : nat,
    (forall n x, (k <= n < k + length l)%nat -> f n x = g n x) ->
    wsum f k l = wsum g k l.
Proof.
  induction l as [|x t IH]; intros k H; [reflexivity|].
  cbn [wsum]. rewrite (H k x) by (cbn [length]; lia).
  rewrite (IH (S k)); [reflexivity|].
  intros n y Hn. apply H. cbn [length]. lia.
Qed.

Lemma wsum_Cmul (c : Complex) (f : nat -> Complex -> Complex)
    (l : list Complex) :
  forall k : nat,
    wsum (fun n x => Cmul c (f n x)) k l = Cmul c (wsum f k l).
Proof.
  induction l as [|x t IH]; intros k; cbn [wsum].
  - rewrite Cmul_zero_r. reflexivity.
  - rewrite IH, Cmul_add_r. reflexivity.
Qed.

Lemma even_index_spec (k : nat) : even_index k = Nat.even k.
Proof.
  unfold even_index. destruct (Nat.even k) eqn:E.
  - apply Nat.even_spec in E. destruct E as [m ->].
    apply Nat.eqb_eq. rewrite Nat.mul_comm. apply Nat.Div0.mod_mul.
  - apply Nat.eqb_neq. intros Hm.
    apply Nat.Div0.mod_divides in Hm. destruct Hm as [m ->].
    rewrite Nat.even_mul in E. discriminate.
Qed.

(** A sum over a list splits into the sums over its elements of even and
    of odd index. *)
Lemma wsum_parity (f : nat -> Complex -> Complex) (l : list Complex) :
  forall k : nat,
    wsum f k l
    = add (wsum (fun p => f (2 * p)%nat) ((k + 1) / 2)
                (filter_from even_index k l))
          (wsum (fun p => f (2 * p + 1)%nat) (k / 2)
                (filter_from odd_index k l)).
Proof.
  induction l as [|x t IH]; intros k; cbn [filter_from wsum].
  - rewrite add_zero_r. reflexivity.
  - rewrite (IH (S k)). unfold odd_index. fold (even_index k).
    rewrite even_index_spec. destruct (Nat.even k) eqn:E; cbn [negb wsum].
    + apply Nat.even_spec in E. destruct E as [q ->].
      replace ((2 * q + 1) / 2)%nat with q by lia.
      replace ((S (2 * q) + 1) / 2)%nat with (S q) by lia.
      replace (S (2 * q) / 2)%nat with q by lia.
      replace (2 * q / 2)%nat with q by lia.
      rewrite add_assoc. reflexivity.
    + assert (Ho : Nat.odd k = true)
        by (rewrite <- Nat.negb_even, E; reflexivity).
      apply Nat.odd_spec in Ho. destruct Ho as [q ->].
      replace ((2 * q + 1 + 1) / 2)%nat with (S q) by lia.
      replace ((S (2 * q + 1) + 1) / 2)%nat with (S q) by lia.
      replace (S (2 * q + 1) / 2)%nat with (S q) by lia.
      replace ((2 * q + 1) / 2)%nat with q by lia.
      rewrite !add_assoc. f_equal. apply add_comm.
Qed.

Lemma twiddle_cis (N k : nat) :
  twiddle N k = cis (-2 * PI * INR k / INR N).
Proof. reflexivity. Qed.

Lemma lower_Cmul (N k : nat) (e o : Complex) :
  lower N k e o = add e (Cmul (twiddle N k) o).
Proof. reflexivity. Qed.

Lemma upper_Cmul (N k : nat) (e o : Complex) :
  upper N k e o = add e (Cmul (Cscale (-1) (twiddle N k)) o).
Proof. unfold upper, add, Cmul, Cscale. cbn [r i]. f_equal; ring. Qed.

(** The transform of a signal of even length from the transforms of its
    halves of even and of odd index. *)
Lemma dft_split (data : list Complex) (M j : nat) :
  length data = (2 * M)%nat -> M <> 0%nat ->
  dft data j
  = add (dft (filter_index even_index data) j)
        (Cmul (twiddle (2 * M) j) (dft (filter_index odd_index data) j)).
Proof.
  intros Hlen HM.
  assert (HM' : INR M <> 0) by (apply not_0_INR; exact HM).
  unfold dft at 1. rewrite wsum_parity.
  replace ((0 + 1) / 2)%nat with 0%nat by reflexivity.
  replace (0 / 2)%nat with 0%nat by reflexivity.
  fold (filter_index even_index data) (filter_index odd_index data).
  rewrite Hlen. f_equal.
  - unfold dft. rewrite length_filter_even, Hlen.
    replace ((2 * M + 1) / 2)%nat with M by lia.
    apply wsum_ext. intros p x _. do 2 f_equal.
    rewrite !mult_INR. change (INR 2) with (1 + 1). field. exact HM'.
  - unfold dft. rewrite length_filter_odd, Hlen.
    replace (2 * M / 2)%nat with M by lia.
    rewrite <- wsum_Cmul. apply wsum_ext. intros p x _.
    rewrite Cmul_assoc, twiddle_cis, <- cis_plus. do 2 f_equal.
    rewrite plus_INR, !mult_INR. change (INR 2) with (1 + 1).
    change (INR 1) with 1. field. exact HM'.
Qed.

Lemma dft_period (data : list Complex) (j : nat) :
  data <> [] -> dft data (j + length data) = dft data j.
Proof.
  intros Hne. unfold dft. apply wsum_ext. intros n x _. f_equal.
  assert (HN : INR (length data) <> 0).
  { apply not_0_INR. destruct data; [congruence|discriminate]. }
  rewrite <- (cis_turns (-2 * PI * INR j * INR n / INR (length data)) n).
  f_equal. rewrite plus_INR. field. exact HN.
Qed.

Lemma twiddle_half (M j : nat) :
  M <> 0%nat -> twiddle (2 * M) (j + M) = Cscale (-1) (twiddle (2 * M) j).
Proof.
  intros HM. rewrite !twiddle_cis, <- cis_half_turn. f_equal.
  assert (HM' : INR M <> 0) by (apply not_0_INR; exact HM).
  rewrite plus_INR, mult_INR. change (INR 2) with (1 + 1). field. exact HM'.
Qed.

(** The recurrence of the loop computes the discrete Fourier transform. *)
Lemma coefficient_dft :
  forall (m : nat) (data : list Complex),
    length data = (2 ^ m)%nat ->
    forall j : nat, (j < 2 ^ m)%nat -> coefficient m data j = dft data j.
Proof.
  induction m as [|m IH]; intros data Hlen j Hj.
  - destruct data as [|x [|y t]]; try discriminate Hlen.
    cbn in Hj. assert (j = 0%nat) as -> by lia.
    unfold dft. cbn [coefficient nth wsum length INR].
    replace (-2 * PI * 0 * 0 / 1) with 0 by (unfold Rdiv; ring).
    rewrite cis_0, Cmul_one_l, add_zero_r. reflexivity.
  - pose proof (pow2_pos m) as Hpos.
    rewrite Nat.pow_succ_r' in Hlen, Hj.
    assert (Hle : length (filter_index even_index data) = (2 ^ m)%nat)
      by (rewrite length_filter_even; lia).
    assert (Hlo : length (filter_index odd_index data) = (2 ^ m)%nat)
      by (rewrite length_filter_odd; lia).
    cbn [coefficient]. rewrite Nat.pow_succ_r'.
    rewrite (dft_split data (2 ^ m) j Hlen) by lia.
    destruct (Nat.ltb_spec j (2 ^ m)) as [Hlt|Hge].
    + rewrite lower_Cmul, !IH by assumption. reflexivity.
    + rewrite upper_Cmul, !IH by (assumption || lia).
      assert (He : dft (filter_index even_index data) j
                   = dft (filter_index even_index data) (j - 2 ^ m)).
      { rewrite <- (dft_period (filter_index even_index data) (j - 2 ^ m)).
        - rewrite Hle. f_equal. lia.
        - intros E. rewrite E in Hle. cbn in Hle. lia. }
      assert (Ho : dft (filter_index odd_index data) j
                   = dft (filter_index odd_index data) (j - 2 ^ m)).
      { rewrite <- (dft_period (filter_index odd_index data) (j - 2 ^ m)).
        - rewrite Hlo. f_equal. lia.
        - intros E. rewrite E in Hlo. cbn in Hlo. lia. }
      assert (Ht : twiddle (2 * 2 ^ m) j
                   = Cscale (-1) (twiddle (2 * 2 ^ m) (j - 2 ^ m))).
      { rewrite <- twiddle_half by lia. f_equal. lia. }
      rewrite He, Ho, Ht. reflexivity.
Qed.

Lemma fft_by_dft (h : halving) (data : list Complex) :
  is_power_of_two (length data) ->
  fft_by h data = Ok (dense (tabulate (dft data) (length data))).
Proof.
  intros [m Hm].
  assert (E : tabulate (coefficient m data) (2 ^ m)
              = tabulate (dft data) (length data)).
  { rewrite Hm. apply tabulate_ext. intros j Hj.
    apply coefficient_dft; assumption. }
  rewrite (fft_by_power_of_two _ m data Hm), E. reflexivity.
Qed.

(** X1.  On a signal whose length [N] is a power of two, [fft] (either
    version) returns the discrete Fourier transform: coefficient [k] is
    [Σ data[n] · exp(-2πi·k·n/N)]. *)
Theorem fft_computes_dft (data : list Complex) :
  is_power_of_two (length data) ->
  App.fft data = Ok (dense (tabulate (dft data) (length data)))
  /\ Backup.fft data = Ok (dense (tabulate (dft data) (length data))).
Proof. intros HN. split; apply fft_by_dft, HN. Qed.

Lemma fft_computes_dft_witness :
  App.fft [ {| r := 1; i := 0 |}; {| r := 2; i := 0 |} ]
  = Ok (dense (tabulate
                 (dft [ {| r := 1; i := 0 |}; {| r := 2; i := 0 |} ]) 2)).
Proof.
  apply (fft_computes_dft [ {| r := 1; i := 0 |}; {| r := 2; i := 0 |} ]).
  exists 1%nat. reflexivity.
Defined.

Lemma dft_zero_signal (N k : nat) : dft (replicate N zero) k = zero.
Proof.
  unfold dft. generalize (INR (length (replicate N zero))). intros L.
  generalize 0%nat. induction N as [|N IH]; intros n; [reflexivity|].
  cbn [replicate wsum]. rewrite IH, Cmul_zero_r, add_zero_r. reflexivity.
Qed.

(** X2.  [fft] of the all-zero signal of a power-of-two length is the
    all-zero array of the same length. *)
Theorem fft_zero_signal (N : nat) :
  is_power_of_two N ->
  App.fft (replicate N zero) = Ok (dense (replicate N zero))
  /\ Backup.fft (replicate N zero) = Ok (dense (replicate N zero)).
Proof.
  intros HN.
  assert (HL : length (replicate N zero) = N) by apply length_replicate.
  assert (HA : App.fft (replicate N zero)
               = Ok (dense (tabulate (dft (replicate N zero))
                                     (length (replicate N zero)))))
    by (apply fft_by_dft; rewrite HL; exact HN).
  assert (HB : Backup.fft (replicate N zero)
               = Ok (dense (tabulate (dft (replicate N zero))
                                     (length (replicate N zero)))))
    by (apply fft_by_dft; rewrite HL; exact HN).
  assert (E : tabulate (dft (replicate N zero)) (length (replicate N zero))
              = replicate N zero).
  { rewrite HL. apply list_eq. intros j. rewrite lookup_tabulate.
    destruct (Nat.ltb_spec j N).
    - rewrite dft_zero_signal, lookup_replicate_2 by assumption. reflexivity.
    - symmetry. apply lookup_ge_None. rewrite length_replicate. lia. }
  rewrite E in HA, HB. split; assumption.
Qed.

Lemma fft_zero_signal_witness :
  App.fft (replicate 8 zero) = Ok (dense (replicate 8 zero)).
Proof. apply (fft_zero_signal 8). exists 3%nat. reflexivity. Defined.

Lemma wsum_plain (l : list Complex) :
  forall k : nat,
    wsum (fun _ x => x) k l
    = {| r := Rsum (r <$> l); i := Rsum (i <$> l) |}.
Proof.
  induction l as [|x t IH]; intros k; [reflexivity|].
  cbn [wsum]. rewrite IH. unfold add, Rsum. cbn. reflexivity.
Qed.

(** X3.  Coefficient 0 of the output of [fft] is the sum of the samples. *)
Theorem fft_coefficient_0 (data : list Complex) :
  is_power_of_two (length data) ->
  exists X : list Complex,
    App.fft data = Ok (dense X)
    /\ Backup.fft data = Ok (dense X)
    /\ X !! 0%nat
       = Some {| r := Rsum (r <$> data); i := Rsum (i <$> data) |}.
Proof.
  intros HN.
  pose proof (fft_by_dft ExactHalf data HN) as HA.
  pose proof (fft_by_dft FloorHalf data HN) as HB.
  eexists. split; [exact HA|]. split; [exact HB|].
  rewrite lookup_tabulate.
  destruct HN as [m Hm]. pose proof (pow2_pos m).
  destruct (Nat.ltb_spec 0 (length data)); [|lia].
  f_equal. unfold dft. rewrite <- wsum_plain with (k := 0%nat).
  apply wsum_ext. intros n x _. cbn [INR].
  replace (-2 * PI * 0 * INR n / INR (length data)) with 0
    by (unfold Rdiv; ring).
  rewrite cis_0. apply Cmul_one_l.
Qed.

Lemma fft_coefficient_0_witness :
  exists X : list Complex,
    App.fft [ {| r := 1; i := 0 |}; {| r := 2; i := 0 |} ] = Ok (dense X)
    /\ X !! 0%nat
       = Some {| r := Rsum (r <$> [ {| r := 1; i := 0 |}; {| r := 2; i := 0 |} ]);
                 i := Rsum (i <$> [ {| r := 1; i := 0 |}; {| r := 2; i := 0 |} ]) |}.
Proof.
  destruct (fft_coefficient_0 [ {| r := 1; i := 0 |}; {| r := 2; i := 0 |} ])
    as (X & HA & _ & H0).
  - exists 1%nat. reflexivity.
  - exists X. split; assumption.
Defined.

(** * The projection and the centroid against fft *)

Lemma rotate_Cmul (theta : R) (d : Complex) :
  rotate theta d = Cmul (cis theta) d.
Proof. unfold rotate, Cmul, cis. cbn [r i]. f_equal; ring. Qed.

Lemma sum_imap (f : nat -> Complex -> Complex) (l : list Complex) :
  forall k : nat,
    {| r := Rsum (r <$> imap (fun j x => f (k + j)%nat x) l);
       i := Rsum (i <$> imap (fun j x => f (k + j)%nat x) l) |}
    = wsum f k l.
Proof.
  induction l as [|x t IH]; intros k; [reflexivity|].
  rewrite imap_cons.
  assert (E : imap ((fun j y => f (k + j)%nat y) ∘ S) t
              = imap (fun j y => f (S k + j)%nat y) t).
  { apply imap_ext. intros j y _. cbn. f_equal. lia. }
  rewrite E. cbn [wsum]. rewrite <- (IH (S k)).
  rewrite Nat.add_0_r, !fmap_cons. reflexivity.
Qed.

Lemma wsum_ext_Forall (P : Complex -> Prop)
    (f g : nat -> Complex -> Complex) (l : list Complex) :
  Forall P l -> (forall n x, P x -> f n x = g n x) ->
  forall k : nat, wsum f k l = wsum g k l.
Proof.
  intros HP H. induction HP as [|x t Hx _ IH]; intros k; [reflexivity|].
  cbn [wsum]. rewrite (H k x Hx), IH. reflexivity.
Qed.

Lemma wsum_conjugate (f : nat -> Complex -> Complex) (l : list Complex) :
  forall k : nat,
    wsum (fun n x => conjugate (f n x)) k l = conjugate (wsum f k l).
Proof.
  induction l as [|x t IH]; intros k; cbn [wsum].
  - unfold conjugate, zero. cbn [r i]. f_equal. ring.
  - rewrite IH. unfold conjugate, add. cbn [r i]. f_equal. ring.
Qed.

(** The sum of the trajectory that the projector returns for the frequency
    of bin [k], on a real-valued signal: the conjugate of coefficient [k]
    of the transform. *)
Lemma trajectory_sum_at_bin (data : list Complex) (k : nat)
    (samplingRate : R) :
  data <> [] -> real_valued data -> samplingRate <> 0 ->
  wsum (fun n d =>
          rotate (2 * PI * (INR k * samplingRate / INR (length data))
                  / samplingRate * INR n) d)
       0 data
  = conjugate (dft data k).
Proof.
  intros Hne Hreal Hsr. unfold dft. rewrite <- wsum_conjugate.
  assert (HN : INR (length data) <> 0).
  { apply not_0_INR. destruct data; [congruence|discriminate]. }
  apply (wsum_ext_Forall (fun c => c.(i) = 0)); [exact Hreal|].
  intros n [dr di] Hd. cbn in Hd. subst di.
  rewrite rotate_Cmul.
  replace (2 * PI * (INR k * samplingRate / INR (length data))
           / samplingRate * INR n)
    with (- (-2 * PI * INR k * INR n / INR (length data)))
    by (field; split; assumption).
  unfold Cmul, cis, conjugate. cbn [r i]. rewrite cos_neg, sin_neg.
  f_equal; ring.
Qed.

(** The centroids of that trajectory. *)
Lemma centroid_of_projection (data : list Complex) (k : nat)
    (samplingRate : R) :
  data <> [] -> real_valued data -> samplingRate <> 0 ->
  App.centroid
    (imap (fun n d =>
             rotate (2 * PI * (INR k * samplingRate / INR (length data))
                     / samplingRate * INR n) d)
          data)
  = Cscale (2 / INR (length data)) (conjugate (dft data k))
  /\ Backup.centroid
       (imap (fun n d =>
                rotate (2 * PI * (INR k * samplingRate / INR (length data))
                        / samplingRate * INR n) d)
             data)
     = Cscale (1 / INR (length data)) (conjugate (dft data k)).
Proof.
  intros Hne Hreal Hsr.
  assert (HN0 : INR (length data) <> 0).
  { apply not_0_INR. destruct data; [congruence|discriminate]. }
  rewrite App_centroid_eq, Backup_centroid_eq, length_imap.
  pose proof (sum_imap
                (fun n d =>
                   rotate (2 * PI * (INR k * samplingRate / INR (length data))
                           / samplingRate * INR n) d)
                data 0) as Hsum.
  cbn [Nat.add] in Hsum.
  rewrite trajectory_sum_at_bin in Hsum by assumption.
  apply (f_equal r) in Hsum as Hr. apply (f_equal i) in Hsum as Hi.
  cbn [r i] in Hr, Hi. rewrite Hr, Hi. unfold Cscale.
  split; f_equal; field; exact HN0.
Qed.

(** X4.  The two halves of the application meet: for a real-valued signal
    of power-of-two length [N] and the frequency [k·samplingRate/N] of bin
    [k], the centroid of the projected trajectory is the conjugate of
    coefficient [k] of [fft], times [2/N] in the current component and
    [1/N] in the backup component. *)
Theorem centroid_at_bin_frequency (data : list Complex) (k : nat)
    (samplingRate : R) :
  is_power_of_two (length data) -> real_valued data ->
  0 < samplingRate -> (k < length data)%nat ->
  exists (X trajectory : list Complex) (c : Complex),
    App.fft data = Ok (dense X)
    /\ Backup.fft data = Ok (dense X)
    /\ X !! k = Some c
    /\ calculateDFTForFrequency data
         (INR k * samplingRate / INR (length data)) (length data) samplingRate
       = Ok trajectory
    /\ App.centroid trajectory
       = Cscale (2 / INR (length data)) (conjugate c)
    /\ Backup.centroid trajectory
       = Cscale (1 / INR (length data)) (conjugate c).
Proof.
  intros HN Hreal Hsr Hk.
  pose proof (fft_by_dft ExactHalf data HN) as HA.
  pose proof (fft_by_dft FloorHalf data HN) as HB.
  assert (Hne : data <> []) by (intros ->; cbn in Hk; lia).
  eexists _, _, (dft data k).
  split; [exact HA|]. split; [exact HB|]. split.
  { rewrite lookup_tabulate. destruct (Nat.ltb_spec k (length data)); [|lia].
    reflexivity. }
  rewrite calculateDFTForFrequency_eq, Nat.leb_refl, firstn_all.
  split; [reflexivity|].
  apply centroid_of_projection; [assumption|assumption|lra].
Qed.

Lemma centroid_at_bin_frequency_witness :
  exists (X trajectory : list Complex) (c : Complex),
    App.fft [ {| r := 1; i := 0 |}; {| r := 2; i := 0 |} ] = Ok (dense X)
    /\ X !! 1%nat = Some c
    /\ calculateDFTForFrequency
         [ {| r := 1; i := 0 |}; {| r := 2; i := 0 |} ]
         (INR 1 * 1000 / INR 2) 2 1000 = Ok trajectory
    /\ App.centroid trajectory = Cscale (2 / INR 2) (conjugate c).
Proof.
  destruct (centroid_at_bin_frequency
              [ {| r := 1; i := 0 |}; {| r := 2; i := 0 |} ] 1 1000)
    as (X & t & c & HA & _ & Hc & Ht & HC & _).
  - exists 1%nat. reflexivity.
  - repeat constructor.
  - lra.
  - cbn. lia.
  - exists X, t, c. repeat split; assumption.
Defined.

(** * The spectra and the charts *)

(** ** Embedding of the remaining numeric code *)

(** [frequencyAxis]: [Array.from({ length: numPoints / 2 }, (_, i) =>
    (i * samplingRate) / numPoints)]; a fractional length is truncated. *)
Definition frequencyAxis (numPoints : nat) (samplingRate : R) : list R :=
  (fun k : nat => INR k * samplingRate / INR numPoints)
    <$> seq 0 (numPoints / 2).

(** An item of [amplitudeSpectrumData]: [frequencyAxis[index]] may be
    [undefined] ([None]). *)
Record AmplitudePoint : Type :=
  mkAmplitudePoint { frequency : option R; amp : R }.

(** [amplitudeSpectrum] and [amplitudeSpectrumData] of both components, as
    a function of the coefficients [fftResults], taken without holes (as
    they are for the 512 samples of the components). *)
Definition amplitudeSpectrum (fftResults : list Complex) : list R :=
  (fun c => sqrt (c.(r) ^ 2 + c.(i) ^ 2)) <$> fftResults.

Definition amplitudeSpectrumData (fftResults : list Complex)
    (numPoints : nat) (samplingRate : R) : list AmplitudePoint :=
  imap (fun index a =>
          {| frequency := frequencyAxis numPoints samplingRate !! index;
             amp := a * 2 / INR numPoints |})
       (take (numPoints / 2) (amplitudeSpectrum fftResults)).

(** An item of [phaseSpectrumData]. *)
Record PhasePoint : Type :=
  mkPhasePoint { phase_frequency : option R; phase : R }.

Section Phase.

(** [Math.atan2(y, x)], of which only the range is used. *)
Variable atan2 : R -> R -> R.
Hypothesis atan2_range : forall y x : R, - PI <= atan2 y x <= PI.

(** The phase of one coefficient in the current component: degrees,
    shifted by 90 and wrapped once. *)
Definition App_phase (c : Complex) : R :=
  let p := atan2 c.(i) c.(r) * 180 / PI + 90 in
  if Rgt_dec p 180 then p + -360 else p.

Definition App_phaseSpectrumData (fftResults : list Complex)
    (numPoints : nat) (samplingRate : R) : list PhasePoint :=
  imap (fun index p =>
          {| phase_frequency := frequencyAxis numPoints samplingRate !! index;
             phase := p |})
       (take (numPoints / 2) (App_phase <$> fftResults)).

(** The same in the backup component: radians first, degrees in the chart
    data, no shift and no wrap. *)
Definition Backup_phaseSpectrumData (fftResults : list Complex)
    (numPoints : nat) (samplingRate : R) : list PhasePoint :=
  imap (fun index p =>
          {| phase_frequency := frequencyAxis numPoints samplingRate !! index;
             phase := p * 180 / PI |})
       (take (numPoints / 2)
             ((fun c => atan2 c.(i) c.(r)) <$> fftResults)).

Lemma App_phase_range (c : Complex) : -180 < App_phase c <= 180.
Proof.
  unfold App_phase. cbv zeta.
  pose proof (atan2_range c.(i) c.(r)) as [Hlo Hhi].
  pose proof PI_RGT_0 as Hpi.
  assert (H1 : -180 <= atan2 c.(i) c.(r) * 180 / PI).
  { apply (Rmult_le_reg_r PI); [exact Hpi|].
    unfold Rdiv. rewrite Rmult_assoc, Rinv_l by lra. lra. }
  assert (H2 : atan2 c.(i) c.(r) * 180 / PI <= 180).
  { apply (Rmult_le_reg_r PI); [exact Hpi|].
    unfold Rdiv. rewrite Rmult_assoc, Rinv_l by lra. lra. }
  destruct (Rgt_dec _ 180); lra.
Qed.

(** X5.  Given that [Math.atan2] returns an angle in [[-π, π]], every
    phase of the chart data of the current component lies in
    [(-180, 180]], and every phase of the backup component in
    [[-180, 180]]. *)
Theorem phaseSpectrumData_range (fftResults : list Complex)
    (numPoints : nat) (samplingRate : R) :
  Forall (fun pt => -180 < pt.(phase) <= 180)
         (App_phaseSpectrumData fftResults numPoints samplingRate)
  /\ Forall (fun pt => -180 <= pt.(phase) <= 180)
            (Backup_phaseSpectrumData fftResults numPoints samplingRate).
Proof.
  split; apply Forall_lookup; intros k pt Hpt.
  - unfold App_phaseSpectrumData in Hpt.
    rewrite list_lookup_imap in Hpt.
    destruct (take _ _ !! k) as [p|] eqn:Hp; [|discriminate].
    injection Hpt as <-. cbn [phase].
    apply lookup_take_Some in Hp. destruct Hp as [Hp _].
    rewrite list_lookup_fmap in Hp.
    destruct (fftResults !! k) as [c|]; [|discriminate].
    injection Hp as <-. apply App_phase_range.
  - unfold Backup_phaseSpectrumData in Hpt.
    rewrite list_lookup_imap in Hpt.
    destruct (take _ _ !! k) as [p|] eqn:Hp; [|discriminate].
    injection Hpt as <-. cbn [phase].
    apply lookup_take_Some in Hp. destruct Hp as [Hp _].
    rewrite list_lookup_fmap in Hp.
    destruct (fftResults !! k) as [c|]; [|discriminate].
    injection Hp as <-.
    pose proof (atan2_range c.(i) c.(r)) as [Hlo Hhi].
    pose proof PI_RGT_0 as Hpi.
    split; apply (Rmult_le_reg_r PI); try exact Hpi;
      unfold Rdiv; rewrite Rmult_assoc, Rinv_l by lra; lra.
Qed.

End Phase.

Lemma phaseSpectrumData_range_witness :
  Forall (fun pt => -180 < pt.(phase) <= 180)
         (App_phaseSpectrumData (fun _ _ => 0)
            [ {| r := 1; i := 2 |}; {| r := 3; i := 4 |} ] 2 1000).
Proof.
  apply (phaseSpectrumData_range (fun _ _ => 0)).
  intros y x. pose proof PI_RGT_0. lra.
Defined.

(** ** The amplitude spectrum *)

Lemma lookup_frequencyAxis (numPoints : nat) (samplingRate : R) (k : nat) :
  (k < numPoints / 2)%nat ->
  frequencyAxis numPoints samplingRate !! k
  = Some (INR k * samplingRate / INR numPoints).
Proof.
  intros Hk. unfold frequencyAxis.
  rewrite list_lookup_fmap, lookup_seq_lt by exact Hk. reflexivity.
Qed.

Lemma lookup_amplitudeSpectrumData (fftResults : list Complex)
    (numPoints : nat) (samplingRate : R) (k : nat) (c : Complex) :
  (k < numPoints / 2)%nat -> fftResults !! k = Some c ->
  amplitudeSpectrumData fftResults numPoints samplingRate !! k
  = Some {| frequency := Some (INR k * samplingRate / INR numPoints);
            amp := sqrt (c.(r) ^ 2 + c.(i) ^ 2) * 2 / INR numPoints |}.
Proof.
  intros Hk Hc. unfold amplitudeSpectrumData, amplitudeSpectrum.
  rewrite list_lookup_imap, lookup_take_lt, list_lookup_fmap, Hc by exact Hk.
  cbn [fmap option_fmap option_map].
  rewrite lookup_frequencyAxis by exact Hk. reflexivity.
Qed.

(** X6.  The amplitude chart data has one point for each of the first
    [numPoints / 2] coefficients (fewer when there are fewer coefficients).
    Point [k] carries the frequency [k·samplingRate/numPoints], which is
    never undefined and lies in [[0, samplingRate/2)], and the amplitude
    [2·sqrt(re² + im²)/numPoints], which is never negative. *)
Theorem amplitudeSpectrumData_points (fftResults : list Complex)
    (numPoints : nat) (samplingRate : R) :
  (0 < numPoints)%nat -> 0 < samplingRate ->
  length (amplitudeSpectrumData fftResults numPoints samplingRate)
  = Nat.min (numPoints / 2) (length fftResults)
  /\ forall (k : nat) (pt : AmplitudePoint),
       amplitudeSpectrumData fftResults numPoints samplingRate !! k = Some pt ->
       exists c : Complex,
         fftResults !! k = Some c
         /\ pt.(frequency) = Some (INR k * samplingRate / INR numPoints)
         /\ 0 <= INR k * samplingRate / INR numPoints < samplingRate / 2
         /\ pt.(amp) = sqrt (c.(r) ^ 2 + c.(i) ^ 2) * 2 / INR numPoints
         /\ 0 <= pt.(amp).
Proof.
  intros HN Hsr. split.
  - unfold amplitudeSpectrumData, amplitudeSpectrum.
    rewrite length_imap, length_take, length_fmap. reflexivity.
  - intros k pt Hpt.
    assert (Hk : (k < numPoints / 2)%nat /\ (k < length fftResults)%nat).
    { apply lookup_lt_Some in Hpt.
      unfold amplitudeSpectrumData, amplitudeSpectrum in Hpt.
      rewrite length_imap, length_take, length_fmap in Hpt. lia. }
    destruct Hk as [Hk1 Hk2].
    destruct (lookup_lt_is_Some_2 fftResults k Hk2) as [c Hc].
    rewrite (lookup_amplitudeSpectrumData _ _ _ _ c Hk1 Hc) in Hpt.
    injection Hpt as <-. exists c. cbn [frequency amp].
    assert (HN' : 0 < INR numPoints) by (apply lt_0_INR; exact HN).
    assert (Hk' : 2 * INR k < INR numPoints).
    { change 2 with (INR 2). rewrite <- mult_INR. apply lt_INR. lia. }
    repeat split.
    + exact Hc.
    + apply Rmult_le_pos; [|left; apply Rinv_0_lt_compat; exact HN'].
      apply Rmult_le_pos; [apply pos_INR|lra].
    + apply (Rmult_lt_reg_r (INR numPoints)); [exact HN'|].
      unfold Rdiv. rewrite Rmult_assoc, Rinv_l by lra. nra.
    + apply Rmult_le_pos; [|left; apply Rinv_0_lt_compat; exact HN'].
      apply Rmult_le_pos; [apply sqrt_pos|lra].
Qed.

Lemma amplitudeSpectrumData_points_witness :
  length (amplitudeSpectrumData
            [ {| r := 3; i := 4 |}; {| r := 0; i := 0 |};
              {| r := 1; i := 0 |}; {| r := 0; i := 1 |} ] 4 1000)
  = Nat.min (4 / 2) 4.
Proof.
  apply (amplitudeSpectrumData_points
           [ {| r := 3; i := 4 |}; {| r := 0; i := 0 |};
             {| r := 1; i := 0 |}; {| r := 0; i := 1 |} ] 4 1000);
    [lia|lra].
Defined.

Lemma modulus_Cscale (c : R) (z : Complex) :
  0 <= c ->
  sqrt ((Cscale c (conjugate z)).(r) ^ 2 + (Cscale c (conjugate z)).(i) ^ 2)
  = c * sqrt (z.(r) ^ 2 + z.(i) ^ 2).
Proof.
  intros Hc. unfold Cscale, conjugate. cbn [r i].
  replace ((c * r z) ^ 2 + (c * - i z) ^ 2)
    with (c ^ 2 * (r z ^ 2 + i z ^ 2)) by ring.
  rewrite sqrt_mult_alt by (apply pow2_ge_0).
  rewrite sqrt_pow2 by exact Hc. reflexivity.
Qed.

(** X7.  For a real-valued signal of power-of-two length [N] and a bin
    [k < N/2], the amplitude that the current component plots at bin [k] is
    the modulus of the centroid it plots when the selected frequency is
    that of bin [k]. *)
Theorem amplitude_is_centroid_modulus (data : list Complex) (k : nat)
    (samplingRate : R) :
  is_power_of_two (length data) -> real_valued data ->
  0 < samplingRate -> (k < length data / 2)%nat ->
  exists (X trajectory : list Complex) (pt : AmplitudePoint),
    App.fft data = Ok (dense X)
    /\ amplitudeSpectrumData X (length data) samplingRate !! k = Some pt
    /\ calculateDFTForFrequency data
         (INR k * samplingRate / INR (length data)) (length data) samplingRate
       = Ok trajectory
    /\ pt.(amp)
       = sqrt ((App.centroid trajectory).(r) ^ 2
               + (App.centroid trajectory).(i) ^ 2).
Proof.
  intros HN Hreal Hsr Hk.
  pose proof (fft_by_dft ExactHalf data HN) as HA.
  assert (Hne : data <> []) by (intros ->; cbn in Hk; lia).
  assert (HN0 : 0 < INR (length data)).
  { apply lt_0_INR. destruct data; [congruence|cbn; lia]. }
  eexists _, _, _. split; [exact HA|]. split.
  { apply lookup_amplitudeSpectrumData; [exact Hk|].
    rewrite lookup_tabulate.
    destruct (Nat.ltb_spec k (length data)); [reflexivity|lia]. }
  rewrite calculateDFTForFrequency_eq, Nat.leb_refl, firstn_all.
  split; [reflexivity|]. cbn [amp].
  destruct (centroid_of_projection data k samplingRate Hne Hreal) as [-> _];
    [lra|].
  rewrite modulus_Cscale.
  - field. lra.
  - apply Rmult_le_pos; [lra|]. left. apply Rinv_0_lt_compat. exact HN0.
Qed.

Lemma amplitude_is_centroid_modulus_witness :
  exists (X trajectory : list Complex) (pt : AmplitudePoint),
    App.fft [ {| r := 1; i := 0 |}; {| r := 2; i := 0 |};
              {| r := 3; i := 0 |}; {| r := 4; i := 0 |} ] = Ok (dense X)
    /\ amplitudeSpectrumData X 4 1000 !! 1%nat = Some pt
    /\ calculateDFTForFrequency
         [ {| r := 1; i := 0 |}; {| r := 2; i := 0 |};
           {| r := 3; i := 0 |}; {| r := 4; i := 0 |} ]
         (INR 1 * 1000 / INR 4) 4 1000 = Ok trajectory
    /\ pt.(amp)
       = sqrt ((App.centroid trajectory).(r) ^ 2
               + (App.centroid trajectory).(i) ^ 2).
Proof.
  apply (amplitude_is_centroid_modulus
           [ {| r := 1; i := 0 |}; {| r := 2; i := 0 |};
             {| r := 3; i := 0 |}; {| r := 4; i := 0 |} ] 1 1000).
  - exists 2%nat. reflexivity.
  - repeat constructor.
  - lra.
  - cbn. lia.
Defined.

(** ** SpectrumChart: the items shown *)

(** [item.frequency >= frequencyRange[0] && item.frequency <=
    frequencyRange[1]]: a comparison with [undefined] is false. *)
Definition in_frequencyRange (frequencyRange : list R) (f : option R) : bool :=
  match f, frequencyRange !! 0%nat, frequencyRange !! 1%nat with
  | Some x, Some lo, Some hi =>
      if Rge_dec x lo then (if Rle_dec x hi then true else false) else false
  | _, _, _ => false
  end.

(** [filteredData] of [SpectrumChart] (both components), for items of
    either spectrum; [frequency_of] reads the field [frequency]. *)
Definition SpectrumChart_filteredData {A : Type} (frequency_of : A -> option R)
    (data : list A) (frequencyRange : list R) : list A :=
  List.filter (fun item => in_frequencyRange frequencyRange (frequency_of item))
              data.

(** X8.  [SpectrumChart] shows exactly the items whose frequency is defined
    and lies between the two bounds of [frequencyRange], in their order;
    when [frequencyRange] has fewer than two entries it shows nothing. *)
Theorem SpectrumChart_filteredData_spec {A : Type}
    (frequency_of : A -> option R) (data : list A) (frequencyRange : list R) :
  (forall item : A,
     In item (SpectrumChart_filteredData frequency_of data frequencyRange)
     <-> In item data
         /\ exists x lo hi : R,
              frequency_of item = Some x
              /\ frequencyRange !! 0%nat = Some lo
              /\ frequencyRange !! 1%nat = Some hi
              /\ lo <= x <= hi)
  /\ sublist (SpectrumChart_filteredData frequency_of data frequencyRange) data
  /\ ((length frequencyRange < 2)%nat ->
      SpectrumChart_filteredData frequency_of data frequencyRange = []).
Proof.
  unfold SpectrumChart_filteredData. split; [|split].
  - intros item. rewrite filter_In. unfold in_frequencyRange.
    split; intros [Hin H]; (split; [exact Hin|]).
    + destruct (frequency_of item) as [x|]; [|discriminate].
      destruct (frequencyRange !! 0%nat) as [lo|]; [|discriminate].
      destruct (frequencyRange !! 1%nat) as [hi|]; [|discriminate].
      destruct (Rge_dec x lo); [|discriminate].
      destruct (Rle_dec x hi); [|discriminate].
      exists x, lo, hi. repeat split; try reflexivity; lra.
    + destruct H as (x & lo & hi & -> & -> & -> & Hlo & Hhi).
      destruct (Rge_dec x lo); [|lra].
      destruct (Rle_dec x hi); [reflexivity|lra].
  - induction data as [|a t IH]; cbn [List.filter]; [constructor|].
    destruct (in_frequencyRange _ _); constructor; exact IH.
  - intros Hlen.
    assert (H1 : frequencyRange !! 1%nat = None)
      by (apply lookup_ge_None; lia).
    induction data as [|a t IH]; [reflexivity|]. cbn [List.filter].
    unfold in_frequencyRange at 1. rewrite H1.
    destruct (frequency_of a), (frequencyRange !! 0%nat); exact IH.
Qed.

Lemma SpectrumChart_filteredData_spec_witness :
  SpectrumChart_filteredData frequency
    [ {| frequency := Some 10; amp := 1 |} ] [ 0 ] = [].
Proof.
  apply (SpectrumChart_filteredData_spec frequency
           [ {| frequency := Some 10; amp := 1 |} ] [ 0 ]).
  cbn. lia.
Defined.

(** X9.  When the range reaches from 0 or below to half the sampling rate
    or above, [SpectrumChart] shows every point of the amplitude
    spectrum. *)
Theorem SpectrumChart_shows_whole_spectrum (fftResults : list Complex)
    (numPoints : nat) (samplingRate lo hi : R) :
  (0 < numPoints)%nat -> 0 < samplingRate ->
  lo <= 0 -> samplingRate / 2 <= hi ->
  SpectrumChart_filteredData frequency
    (amplitudeSpectrumData fftResults numPoints samplingRate) [lo; hi]
  = amplitudeSpectrumData fftResults numPoints samplingRate.
Proof.
  intros HN Hsr Hlo Hhi. unfold SpectrumChart_filteredData.
  apply forallb_filter_id, forallb_forall. intros pt Hin.
  apply list_elem_of_In, list_elem_of_lookup in Hin. destruct Hin as [k Hk].
  assert (Hk1 : (k < numPoints / 2)%nat /\ (k < length fftResults)%nat).
  { apply lookup_lt_Some in Hk.
    unfold amplitudeSpectrumData, amplitudeSpectrum in Hk.
    rewrite length_imap, length_take, length_fmap in Hk. lia. }
  destruct Hk1 as [Hk1 Hk2].
  destruct (lookup_lt_is_Some_2 fftResults k Hk2) as [c Hc].
  rewrite (lookup_amplitudeSpectrumData _ _ _ _ c Hk1 Hc) in Hk.
  injection Hk as <-. unfold in_frequencyRange. cbn.
  assert (HN' : 0 < INR numPoints) by (apply lt_0_INR; exact HN).
  assert (Hk' : 2 * INR k < INR numPoints).
  { change 2 with (INR 2). rewrite <- mult_INR. apply lt_INR. lia. }
  assert (H0 : 0 <= INR k * samplingRate / INR numPoints).
  { apply Rmult_le_pos; [|left; apply Rinv_0_lt_compat; exact HN'].
    apply Rmult_le_pos; [apply pos_INR|lra]. }
  assert (H1 : INR k * samplingRate / INR numPoints < samplingRate / 2).
  { apply (Rmult_lt_reg_r (INR numPoints)); [exact HN'|].
    unfold Rdiv. rewrite Rmult_assoc, Rinv_l by lra. nra. }
  destruct (Rge_dec _ lo); [|lra]. destruct (Rle_dec _ hi); [reflexivity|lra].
Qed.

Lemma SpectrumChart_shows_whole_spectrum_witness :
  SpectrumChart_filteredData frequency
    (amplitudeSpectrumData [ {| r := 3; i := 4 |}; {| r := 0; i := 0 |} ]
                           2 1000) [0; 500]
  = amplitudeSpectrumData [ {| r := 3; i := 4 |}; {| r := 0; i := 0 |} ]
                          2 1000.
Proof.
  apply SpectrumChart_shows_whole_spectrum; [lia|lra|lra|lra].
Defined.

(** ** ComplexPlaneChart of the stand-alone chart file: the plotted point *)

(** The array index a number denotes as a property key: a non-negative
    integer; any other number is the key of no element. *)
Definition array_index (x : R) : option nat :=
  if Req_dec_T x (IZR (Int_part x))
  then (if Z_le_dec 0 (Int_part x) then Some (Z.to_nat (Int_part x)) else None)
  else None.

(** [const point = data[selectedFrequency] || { r: 0, i: 0 }]. *)
Definition ComplexPlaneChart_point (data : list Complex)
    (selectedFrequency : R) : Complex :=
  match array_index selectedFrequency with
  | Some n => match data !! n with
              | Some p => p
              | None => {| r := 0; i := 0 |}
              end
  | None => {| r := 0; i := 0 |}
  end.

Lemma array_index_INR (n : nat) : array_index (INR n) = Some n.
Proof.
  unfold array_index. rewrite Int_part_INR, <- INR_IZR_INZ.
  destruct (Req_dec_T (INR n) (INR n)) as [_|H]; [|congruence].
  destruct (Z_le_dec 0 (Z.of_nat n)) as [_|H]; [|lia].
  rewrite Nat2Z.id. reflexivity.
Qed.

Lemma array_index_Some (x : R) (n : nat) :
  array_index x = Some n -> x = INR n.
Proof.
  unfold array_index.
  destruct (Req_dec_T x (IZR (Int_part x))) as [E|_]; [|discriminate].
  destruct (Z_le_dec 0 (Int_part x)) as [H|_]; [|discriminate].
  intros [= <-]. rewrite INR_IZR_INZ, Z2Nat.id by exact H. exact E.
Qed.

(** X10.  The stand-alone complex-plane chart plots [data[n]] when the
    selected frequency is the index [n] of an element, and the origin in
    every other case: an index beyond the end, a negative or a fractional
    frequency.  It never fails. *)
Theorem ComplexPlaneChart_point_spec (data : list Complex)
    (selectedFrequency : R) :
  (forall (n : nat) (p : Complex),
     selectedFrequency = INR n -> data !! n = Some p ->
     ComplexPlaneChart_point data selectedFrequency = p)
  /\ ((forall n : nat, selectedFrequency = INR n -> data !! n = None) ->
      ComplexPlaneChart_point data selectedFrequency = {| r := 0; i := 0 |}).
Proof.
  unfold ComplexPlaneChart_point. split.
  - intros n p -> Hp. rewrite array_index_INR, Hp. reflexivity.
  - intros H. destruct (array_index selectedFrequency) as [n|] eqn:E;
      [|reflexivity].
    rewrite (H n (array_index_Some _ _ E)). reflexivity.
Qed.

Lemma ComplexPlaneChart_point_spec_witness :
  ComplexPlaneChart_point [ {| r := 1; i := 2 |}; {| r := 3; i := 4 |} ] (INR 1)
  = {| r := 3; i := 4 |}
  /\ ComplexPlaneChart_point [ {| r := 1; i := 2 |} ] (INR 5)
     = {| r := 0; i := 0 |}.
Proof.
  split.
  - apply (proj1 (ComplexPlaneChart_point_spec
                    [ {| r := 1; i := 2 |}; {| r := 3; i := 4 |} ] (INR 1))
             1%nat); reflexivity.
  - apply (proj2 (ComplexPlaneChart_point_spec
                    [ {| r := 1; i := 2 |} ] (INR 5))).
    intros n Hn. apply INR_eq in Hn. subst n. reflexivity.
Defined.

(** * More on the projector *)

Lemma rotate_modulus (theta : R) (d : Complex) :
  (rotate theta d).(r) ^ 2 + (rotate theta d).(i) ^ 2
  = d.(r) ^ 2 + d.(i) ^ 2.
Proof.
  unfold rotate. cbn [r i]. pose proof (sin2_cos2 theta) as H.
  unfold Rsqr in H.
  replace ((r d * cos theta - i d * sin theta) ^ 2
           + (i d * cos theta + r d * sin theta) ^ 2)
    with ((r d ^ 2 + i d ^ 2) * (sin theta * sin theta + cos theta * cos theta))
    by ring.
  rewrite H. ring.
Qed.

Lemma rotate_back (theta : R) (d : Complex) :
  rotate (- theta) (rotate theta d) = d.
Proof.
  destruct d as [dr di]. unfold rotate. cbn [r i].
  rewrite cos_neg, sin_neg. pose proof (sin2_cos2 theta) as H.
  unfold Rsqr in H. f_equal.
  - replace ((dr * cos theta - di * sin theta) * cos theta
             - (di * cos theta + dr * sin theta) * - sin theta)
      with (dr * (sin theta * sin theta + cos theta * cos theta)) by ring.
    rewrite H. ring.
  - replace ((di * cos theta + dr * sin theta) * cos theta
             + (dr * cos theta - di * sin theta) * - sin theta)
      with (di * (sin theta * sin theta + cos theta * cos theta)) by ring.
    rewrite H. ring.
Qed.

(** X11.  The projector only turns each sample about the origin: for a
    sampling rate that is not zero, when it returns, every sample of the
    trajectory has the modulus of the input sample at the same index. *)
Theorem calculateDFTForFrequency_preserves_modulus
    (data : list Complex) (targetFrequency : R) (numPoints : nat)
    (samplingRate : R) :
  samplingRate <> 0 ->
  (numPoints <= length data)%nat ->
  exists trajectory : list Complex,
    calculateDFTForFrequency data targetFrequency numPoints samplingRate
      = Ok trajectory
    /\ forall (n : nat) (t : Complex),
         trajectory !! n = Some t ->
         exists d : Complex,
           data !! n = Some d
           /\ t.(r) ^ 2 + t.(i) ^ 2 = d.(r) ^ 2 + d.(i) ^ 2.
Proof.
  intros _ Hle. rewrite calculateDFTForFrequency_eq.
  destruct (Nat.leb_spec numPoints (length data)); [|lia].
  eexists. split; [reflexivity|]. intros n t Ht.
  rewrite list_lookup_imap in Ht.
  destruct (take numPoints data !! n) as [d|] eqn:Hd; [|discriminate].
  injection Ht as <-. apply lookup_take_Some in Hd. destruct Hd as [Hd _].
  exists d. split; [exact Hd|]. apply rotate_modulus.
Qed.

Lemma calculateDFTForFrequency_preserves_modulus_witness :
  exists trajectory : list Complex,
    calculateDFTForFrequency
      [ {| r := 3; i := 4 |}; {| r := 1; i := 2 |}; {| r := 0; i := 5 |} ]
      7 3 1000
      = Ok trajectory
    /\ forall (n : nat) (t : Complex),
         trajectory !! n = Some t ->
         exists d : Complex,
           [ {| r := 3; i := 4 |}; {| r := 1; i := 2 |}; {| r := 0; i := 5 |} ]
             !! n = Some d
           /\ t.(r) ^ 2 + t.(i) ^ 2 = d.(r) ^ 2 + d.(i) ^ 2.
Proof.
  apply (calculateDFTForFrequency_preserves_modulus
           [ {| r := 3; i := 4 |}; {| r := 1; i := 2 |}; {| r := 0; i := 5 |} ]
           7 3 1000).
  - lra.
  - cbn. lia.
Defined.

(** X12.  For a sampling rate that is not zero, projecting a whole signal
    at a frequency and the result at the opposite frequency gives the
    signal back. *)
Theorem calculateDFTForFrequency_round_trip
    (data : list Complex) (targetFrequency : R) (numPoints : nat)
    (samplingRate : R) :
  samplingRate <> 0 ->
  length data = numPoints ->
  exists trajectory : list Complex,
    calculateDFTForFrequency data targetFrequency numPoints samplingRate
      = Ok trajectory
    /\ calculateDFTForFrequency trajectory (- targetFrequency) numPoints
         samplingRate
       = Ok data.
Proof.
  intros _ <-. rewrite calculateDFTForFrequency_eq, Nat.leb_refl, firstn_all.
  eexists. split; [reflexivity|].
  rewrite calculateDFTForFrequency_eq, length_imap, Nat.leb_refl.
  rewrite take_ge by (rewrite length_imap; lia).
  f_equal. apply list_eq. intros n. rewrite !list_lookup_imap.
  destruct (data !! n) as [d|]; [|reflexivity]. cbn. f_equal.
  replace (2 * PI * - targetFrequency / samplingRate * INR n)
    with (- (2 * PI * targetFrequency / samplingRate * INR n))
    by (unfold Rdiv; ring).
  apply rotate_back.
Qed.

Lemma calculateDFTForFrequency_round_trip_witness :
  exists trajectory : list Complex,
    calculateDFTForFrequency
      [ {| r := 1; i := 2 |}; {| r := 3; i := 4 |} ] 5 2 1000 = Ok trajectory
    /\ calculateDFTForFrequency trajectory (- 5) 2 1000
       = Ok [ {| r := 1; i := 2 |}; {| r := 3; i := 4 |} ].
Proof.
  apply (calculateDFTForFrequency_round_trip
           [ {| r := 1; i := 2 |}; {| r := 3; i := 4 |} ] 5 2 1000).
  - lra.
  - reflexivity.
Defined.



(** * More on the generator and the compositions *)

(** X14.  With a decay coefficient that is not negative, no sample of a
    generated wave exceeds the amplitude in absolute value, and every
    sample is real. *)
Theorem generateSineWave_bounded (numPoints : nat)
    (frequency0 amplitude decayCoefficient phaseDegrees : R)
    (n : nat) (c : Complex) :
  0 <= decayCoefficient ->
  generateSineWave numPoints frequency0 amplitude decayCoefficient
    phaseDegrees !! n = Some c ->
  Rabs c.(r) <= Rabs amplitude /\ c.(i) = 0.
Proof.
  intros Hd Hc.
  assert (Hn : (n < numPoints)%nat).
  { apply lookup_lt_Some in Hc. rewrite length_generateSineWave in Hc.
    exact Hc. }
  rewrite generateSineWave_lookup in Hc by exact Hn.
  injection Hc as <-. cbn [r i]. split; [|reflexivity].
  rewrite !Rabs_mult.
  set (a := INR n / INR numPoints * frequency0 * PI * 2
            + phaseDegrees * PI / 180).
  assert (Hs : Rabs (sin a) <= 1).
  { apply Rabs_le. pose proof (SIN_bound a). lra. }
  assert (He : Rabs (exp (- decayCoefficient * INR n)) <= 1).
  { rewrite Rabs_right by (left; apply exp_pos).
    rewrite <- exp_0.
    destruct (Req_dec (- decayCoefficient * INR n) 0) as [->|Hne];
      [lra|].
    left. apply exp_increasing.
    pose proof (pos_INR n). nra. }
  pose proof (Rabs_pos (sin a)) as Hs0. pose proof (Rabs_pos amplitude) as Ha0.
  pose proof (Rabs_pos (exp (- decayCoefficient * INR n))) as He0.
  apply Rle_trans with (Rabs (sin a) * Rabs amplitude).
  - rewrite <- (Rmult_1_r (Rabs (sin a) * Rabs amplitude)) at 2.
    apply Rmult_le_compat_l; [apply Rmult_le_pos; assumption|exact He].
  - rewrite <- (Rmult_1_l (Rabs amplitude)) at 2.
    apply Rmult_le_compat_r; assumption.
Qed.

Lemma generateSineWave_bounded_witness :
  Rabs (sin (INR 1 / INR 4 * 3 * PI * 2 + 90 * PI / 180)
        * 2 * exp (- 1 * INR 1)) <= Rabs 2
  /\ 0 = 0.
Proof.
  apply (generateSineWave_bounded 4 3 2 1 90 1
           {| r := sin (INR 1 / INR 4 * 3 * PI * 2 + 90 * PI / 180)
                   * 2 * exp (- 1 * INR 1);
              i := 0 |}).
  - lra.
  - apply generateSineWave_lookup. lia.
Defined.

Lemma waves_of_two (numPoints : nat) (f1 f2 a1 a2 d1 d2 p1 p2 : R) :
  Backup.waves_of numPoints [f1; f2] [a1; a2] [d1; d2] [p1; p2]
  = Some [ generateSineWave numPoints f1 a1 d1 p1;
           generateSineWave numPoints f2 a2 d2 p2 ].
Proof. destruct numPoints; reflexivity. Qed.

Lemma sample_amplitude_sum (a b amp1 amp2 : R) :
  a * amp1 * b + a * amp2 * b = a * (amp1 + amp2) * b.
Proof. ring. Qed.

(** X15.  Waves of the same frequency, decay and phase superpose to one
    wave whose amplitude is the sum of theirs: in the composition of the
    current component (three waves) and in [generateCompositeWave] (here
    with two). *)
Theorem same_frequency_waves_superpose (numPoints : nat)
    (frequency0 decayCoefficient phaseDegrees amp1 amp2 amp3 : R) :
  App.compositeWave
    (generateSineWave numPoints frequency0 amp1 decayCoefficient phaseDegrees)
    (generateSineWave numPoints frequency0 amp2 decayCoefficient phaseDegrees)
    (generateSineWave numPoints frequency0 amp3 decayCoefficient phaseDegrees)
  = Ok (generateSineWave numPoints frequency0 (amp1 + amp2 + amp3)
          decayCoefficient phaseDegrees)
  /\ Backup.generateCompositeWave numPoints [frequency0; frequency0]
       [amp1; amp2] [decayCoefficient; decayCoefficient]
       [phaseDegrees; phaseDegrees]
     = Some (Ok (generateSineWave numPoints frequency0 (amp1 + amp2)
                   decayCoefficient phaseDegrees)).
Proof.
  split.
  - rewrite compositeWave_eq, !length_generateSineWave.
    rewrite (proj2 (both_readable numPoints numPoints numPoints))
      by (split; lia).
    f_equal. apply list_eq. intros n. rewrite list_lookup_imap.
    destruct (Nat.lt_ge_cases n numPoints) as [Hn|Hn].
    + rewrite !nth_lookup, !generateSineWave_lookup by exact Hn.
      cbn. do 2 f_equal; ring.
    + rewrite !(proj2 (lookup_ge_None _ n))
        by (rewrite length_generateSineWave; exact Hn).
      reflexivity.
  - unfold Backup.generateCompositeWave.
    rewrite waves_of_two.
    cbn [fmap option_fmap option_map]. f_equal.
    erewrite composite_of_eq by reflexivity.
    rewrite (proj2 (all_indices_readable _ _)).
    2:{ repeat constructor; rewrite !length_generateSineWave; lia. }
    f_equal. apply list_eq. intros n. rewrite list_lookup_imap.
    destruct (Nat.lt_ge_cases n numPoints) as [Hn|Hn].
    + unfold Rsum. cbn [fmap list_fmap fold_right].
      rewrite !nth_lookup, !generateSineWave_lookup by exact Hn.
      cbn. do 2 f_equal. ring.
    + rewrite !(proj2 (lookup_ge_None _ n))
        by (rewrite length_generateSineWave; exact Hn).
      reflexivity.
Qed.

(** X16.  The pipeline of the current component cannot fail on a
    power-of-two number of points: whatever the twelve wave parameters,
    the composition of the three generated waves returns [numPoints] real
    samples, and [fft] of it returns [numPoints] coefficients. *)
Theorem App_pipeline_returns (numPoints : nat)
    (freq1 amp1 decay1 phase1 freq2 amp2 decay2 phase2
     freq3 amp3 decay3 phase3 : R) :
  is_power_of_two numPoints ->
  exists (compositeWave X : list Complex),
    App.compositeWave
      (generateSineWave numPoints freq1 amp1 decay1 phase1)
      (generateSineWave numPoints freq2 amp2 decay2 phase2)
      (generateSineWave numPoints freq3 amp3 decay3 phase3)
    = Ok compositeWave
    /\ length compositeWave = numPoints
    /\ real_valued compositeWave
    /\ App.fft compositeWave = Ok (dense X)
    /\ length X = numPoints.
Proof.
  intros HN.
  rewrite compositeWave_eq, !length_generateSineWave.
  rewrite (proj2 (both_readable numPoints numPoints numPoints))
    by (split; lia).
  eexists _, _. split; [reflexivity|].
  assert (HL : length
            (imap (fun n point =>
                     {| r := point.(r)
                             + (nth n (generateSineWave numPoints freq2 amp2
                                         decay2 phase2) zero).(r)
                             + (nth n (generateSineWave numPoints freq3 amp3
                                         decay3 phase3) zero).(r);
                        i := point.(i)
                             + (nth n (generateSineWave numPoints freq2 amp2
                                         decay2 phase2) zero).(i)
                             + (nth n (generateSineWave numPoints freq3 amp3
                                         decay3 phase3) zero).(i) |})
                  (generateSineWave numPoints freq1 amp1 decay1 phase1))
            = numPoints)
    by (rewrite length_imap; apply length_generateSineWave).
  split; [exact HL|]. split.
  - apply Forall_lookup. intros n c Hc. rewrite list_lookup_imap in Hc.
    destruct (generateSineWave numPoints freq1 amp1 decay1 phase1 !! n)
      as [p|] eqn:Hp; [|discriminate].
    injection Hc as <-. cbn [i].
    assert (Hn : (n < numPoints)%nat).
    { apply lookup_lt_Some in Hp. rewrite length_generateSineWave in Hp.
      exact Hp. }
    rewrite generateSineWave_lookup in Hp by exact Hn. injection Hp as <-.
    rewrite !nth_lookup, !generateSineWave_lookup by exact Hn. cbn. ring.
  - unfold App.fft. rewrite fft_by_dft by (rewrite HL; exact HN).
    split; [reflexivity|]. rewrite length_tabulate. exact HL.
Qed.

Lemma App_pipeline_returns_witness :
  exists (compositeWave X : list Complex),
    App.compositeWave (generateSineWave 4 17 5 0.003 (-120))
                      (generateSineWave 4 23 5 0.005 77)
                      (generateSineWave 4 31 5 0.001 0)
    = Ok compositeWave
    /\ length compositeWave = 4%nat
    /\ real_valued compositeWave
    /\ App.fft compositeWave = Ok (dense X)
    /\ length X = 4%nat.
Proof.
  apply (App_pipeline_returns 4 17 5 0.003 (-120) 23 5 0.005 77 31 5 0.001 0).
  exists 2%nat. reflexivity.
Defined.

(** X17.  [generateCompositeWave] with no frequency at all ends in
    [TypeError] (there is no first wave to map over).  With at least one
    frequency, and an amplitude, a decay and a phase for each, it returns
    [numPoints] samples: the sum of the real parts of the generated waves,
    with imaginary part 0. *)
Theorem generateCompositeWave_outcome (numPoints : nat)
    (freqs amps decays phases : list R) :
  (freqs = [] ->
   Backup.generateCompositeWave numPoints freqs amps decays phases
   = Some (Throw TypeError))
  /\ (freqs <> [] ->
      (length freqs <= length amps)%nat ->
      (length freqs <= length decays)%nat ->
      (length freqs <= length phases)%nat ->
      exists (waves : list (list Complex)) (out : list Complex),
        Backup.waves_of numPoints freqs amps decays phases = Some waves
        /\ length waves = length freqs
        /\ Backup.generateCompositeWave numPoints freqs amps decays phases
           = Some (Ok out)
        /\ length out = numPoints
        /\ forall n : nat, (n < numPoints)%nat ->
           out !! n
           = Some {| r := Rsum ((fun w => (nth n w zero).(r)) <$> waves);
                     i := 0 |}).
Proof.
  split.
  - intros ->. reflexivity.
  - intros Hne Ha Hd Hp.
    destruct (generateCompositeWave_returns numPoints freqs amps decays phases
                Hne Ha Hd Hp) as (waves & out & Hw & Hg & HL & Hn).
    exists waves, out. split; [exact Hw|].
    split; [apply (waves_of_spec _ _ _ _ _ _ Hw)|].
    split; [exact Hg|]. split; [exact HL|].
    intros n Hlt. apply (Hn n Hlt).
Qed.

Lemma generateCompositeWave_outcome_witness :
  Backup.generateCompositeWave 4 [] [1] [0] [0] = Some (Throw TypeError)
  /\ exists (waves : list (list Complex)) (out : list Complex),
       Backup.waves_of 4 [2; 4] [1; 1] [0; 0] [0; 0] = Some waves
       /\ length waves = 2%nat
       /\ Backup.generateCompositeWave 4 [2; 4] [1; 1] [0; 0] [0; 0]
          = Some (Ok out)
       /\ length out = 4%nat.
Proof.
  split.
  - apply (proj1 (generateCompositeWave_outcome 4 [] [1] [0] [0])).
    reflexivity.
  - destruct (proj2 (generateCompositeWave_outcome 4 [2; 4] [1; 1] [0; 0]
                       [0; 0]))
      as (waves & out & Hw & Hl & Hg & HL & _);
      [discriminate|cbn; lia|cbn; lia|cbn; lia|].
    exists waves, out. repeat split; assumption.
Defined.

(** * More on fft *)

(** X18.  Whatever the input, the only exception [fft] raises is the
    runtime's [TypeError]; it raises none of the typed errors. *)
Theorem fft_raises_only_TypeError (data : list Complex) (e : exn) :
  App.fft data = Throw e \/ Backup.fft data = Throw e -> e = TypeError.
Proof. intros [H|H]; eapply fft_by_exn, H. Qed.

Lemma fft_raises_only_TypeError_witness : TypeError = TypeError.
Proof.
  apply (fft_raises_only_TypeError (replicate 3 zero) TypeError).
  left.
  destruct (fft_by_non_power_of_two ExactHalf (replicate 3 zero))
    as [Ht|(Hh & _)].
  - rewrite length_replicate. lia.
  - rewrite length_replicate. exact not_power_of_two_3.
  - exact Ht.
  - discriminate Hh.
Defined.

(** X19.  Whenever [fft] returns, the array it returns has as many slots
    as the input has samples, filled or not. *)
Theorem fft_keeps_length (data : list Complex) (X : JSArray) :
  App.fft data = Ok X \/ Backup.fft data = Ok X -> length X = length data.
Proof. intros [H|H]; eapply fft_by_length, H. Qed.

Lemma fft_keeps_length_witness :
  exists X : JSArray,
    Backup.fft [ {| r := 1; i := 2 |}; {| r := 3; i := 4 |};
                 {| r := 5; i := 6 |} ] = Ok X
    /\ length X = 3%nat
    /\ X !! 2%nat = Some None.
Proof.
  destruct (Backup_fft_three_samples
              {| r := 1; i := 2 |} {| r := 3; i := 4 |} {| r := 5; i := 6 |})
    as (c0 & c1 & H).
  exists [Some c0; Some c1; None]. split; [exact H|]. split; [|reflexivity].
  apply (fft_keeps_length
           [ {| r := 1; i := 2 |}; {| r := 3; i := 4 |}; {| r := 5; i := 6 |} ]
           [Some c0; Some c1; None]).
  right. exact H.
Defined.

(** X20.  Whether [fft] fails, and which slots of its result are empty,
    depends only on the length of the input, not on the samples. *)
Theorem fft_shape_depends_on_length (a b : list Complex) :
  length a = length b ->
  outcome_shape (App.fft a) = outcome_shape (App.fft b)
  /\ outcome_shape (Backup.fft a) = outcome_shape (Backup.fft b).
Proof.
  intros Hlen. split.
  - apply (fft_by_add ExactHalf (length a) a b eq_refl (eq_sym Hlen)).
  - apply (fft_by_add FloorHalf (length a) a b eq_refl (eq_sym Hlen)).
Qed.

Lemma fft_shape_depends_on_length_witness :
  outcome_shape (App.fft [ {| r := 1; i := 2 |}; {| r := 3; i := 4 |};
                           {| r := 5; i := 6 |} ])
  = outcome_shape (App.fft [ {| r := 0; i := 0 |}; {| r := 9; i := 8 |};
                             {| r := 7; i := 6 |} ]).
Proof.
  apply (fft_shape_depends_on_length
           [ {| r := 1; i := 2 |}; {| r := 3; i := 4 |}; {| r := 5; i := 6 |} ]
           [ {| r := 0; i := 0 |}; {| r := 9; i := 8 |}; {| r := 7; i := 6 |} ]).
  reflexivity.
Defined.

(** ** The lengths on which the backup version returns *)

Lemma get_insert_filled (l : JSArray) (j idx : nat) (v : Complex) :
  (j < length l)%nat ->
  idx = j \/ is_Some (get l idx) ->
  is_Some (get (<[j := Some v]> l) idx).
Proof.
  intros Hj H. unfold get. rewrite list_lookup_insert.
  destruct (decide (j = idx /\ (j < length l)%nat)) as [_|Hn]; [eauto|].
  destruct H as [->|H]; [exfalso; apply Hn; split; [reflexivity|exact Hj]|].
  exact H.
Qed.

(** When every read of its range succeeds, the loop of the backup version
    returns, and it fills the slots [j] and [j + N / 2] of its range. *)
Lemma butterfly_loop_fills (N : nat) (even odd : JSArray) :
  forall (count k : nat) (results : JSArray),
    length results = N -> (k + count <= N / 2)%nat ->
    (forall j, (k <= j < k + count)%nat ->
       is_Some (get even j) /\ is_Some (get odd j)) ->
    exists results' : JSArray,
      for_loop (butterfly FloorHalf N even odd) k count results = Ok results'
      /\ forall idx : nat,
           is_Some (get results idx)
           \/ (k <= idx < k + count)%nat
           \/ (k + N / 2 <= idx < k + count + N / 2)%nat ->
           is_Some (get results' idx).
Proof.
  induction count as [|c IH]; intros k results Hlen Hk Hread.
  - exists results. split; [reflexivity|].
    intros idx [H|[H|H]]; [exact H|lia|lia].
  - cbn [for_loop].
    destruct (Hread k ltac:(lia)) as [[e He] [o Ho]].
    rewrite (butterfly_ok FloorHalf N even odd k results e o He Ho).
    cbn [bind store_upper].
    destruct (IH (S k)
                (<[(k + N / 2)%nat := Some (upper N k e o)]>
                   (<[k := Some (lower N k e o)]> results)))
      as (results' & Hloop & Hfill).
    + rewrite !length_insert. exact Hlen.
    + lia.
    + intros j Hj. apply Hread. lia.
    + exists results'. split; [exact Hloop|].
      intros idx H. apply Hfill.
      destruct (decide (idx = (k + N / 2)%nat)) as [->|Hne1].
      { left. apply get_insert_filled; [rewrite length_insert; lia|].
        left; reflexivity. }
      destruct (decide (idx = k)) as [->|Hne2].
      { left. apply get_insert_filled; [rewrite length_insert; lia|].
        right. apply get_insert_filled; [lia|]. left; reflexivity. }
      destruct H as [H|[H|H]].
      * left. apply get_insert_filled; [rewrite length_insert; lia|].
        right. apply get_insert_filled; [lia|]. right; exact H.
      * right. left. lia.
      * right. right. lia.
Qed.

Lemma get_dense_filled (l : list Complex) (j : nat) :
  (j < length l)%nat -> is_Some (get (dense l) j).
Proof.
  intros Hj. rewrite get_dense. apply lookup_lt_is_Some_2. exact Hj.
Qed.

(** On [2 ^ m + 1] samples, [m >= 1], the backup version returns an array
    whose slots are filled except the last one. *)
Lemma Backup_fft_power_of_two_plus_one :
  forall (m : nat) (data : list Complex),
    length data = (2 ^ S m + 1)%nat ->
    exists X : JSArray,
      fft_by FloorHalf data = Ok X
      /\ length X = (2 ^ S m + 1)%nat
      /\ (forall idx, (idx < 2 ^ S m)%nat -> is_Some (get X idx))
      /\ X !! (2 ^ S m)%nat = Some None.
Proof.
  induction m as [|m IH]; intros data Hlen.
  - (* three samples *)
    rewrite fft_unfold. destruct (le_lt_dec (length data) 1) as [|_];
      [cbn in Hlen; lia|]. cbv zeta.
    assert (Hle : length (filter_index even_index data) = (2 ^ 1)%nat)
      by (rewrite length_filter_even, Hlen; reflexivity).
    assert (Hlo : length (filter_index odd_index data) = (2 ^ 0)%nat)
      by (rewrite length_filter_odd, Hlen; reflexivity).
    rewrite (fft_by_power_of_two FloorHalf 1 _ Hle).
    rewrite (fft_by_power_of_two FloorHalf 0 _ Hlo).
    cbn [bind]. rewrite Hlen.
    destruct (butterfly_loop_fills 3
                (dense (tabulate
                          (coefficient 1 (filter_index even_index data)) 2))
                (dense (tabulate
                          (coefficient 0 (filter_index odd_index data)) 1))
                1 0 (new_Array 3))
      as (X & HX & Hfill).
    + apply length_replicate.
    + cbn. lia.
    + intros j Hj. assert (j = 0%nat) as -> by lia.
      split; apply get_dense_filled; rewrite length_tabulate; lia.
    + exists X. change (2 ^ 1 + 1)%nat with 3%nat. change (2 ^ 1)%nat with 2%nat.
      change (trips FloorHalf 3) with 1%nat.
      split; [exact HX|].
      split; [rewrite (butterfly_loop_length _ _ _ _ _ _ _ _ HX);
              apply length_replicate|].
      split.
      * intros idx Hidx. apply Hfill. change (3 / 2)%nat with 1%nat. lia.
      * rewrite (butterfly_loop_untouched _ _ _ _ _ _ _ _ 2 HX).
        -- reflexivity.
        -- change (3 / 2)%nat with 1%nat. intros j Hj. lia.
  - pose proof (pow2_pos m) as Hpos.
    set (q := (2 ^ S m)%nat) in *.
    assert (Hq : (2 ^ S (S m) = 2 * q)%nat) by (subst q; apply Nat.pow_succ_r').
    rewrite Hq in *.
    assert (Hq2 : (2 <= q)%nat) by (subst q; rewrite Nat.pow_succ_r'; lia).
    rewrite fft_unfold. destruct (le_lt_dec (length data) 1) as [|_]; [lia|].
    cbv zeta.
    assert (Hle : length (filter_index even_index data) = (q + 1)%nat)
      by (rewrite length_filter_even, Hlen; lia).
    assert (Hlo : length (filter_index odd_index data) = q)
      by (rewrite length_filter_odd, Hlen; lia).
    destruct (IH _ Hle) as (E & HE & HEl & HEf & _).
    rewrite HE, (fft_by_power_of_two FloorHalf (S m) _ Hlo).
    cbn [bind trips]. rewrite Hlen.
    replace ((2 * q + 1) / 2)%nat with q by lia.
    destruct (butterfly_loop_fills (2 * q + 1) E
                (dense (tabulate
                          (coefficient (S m) (filter_index odd_index data))
                          (2 ^ S m)))
                q 0 (new_Array (2 * q + 1)))
      as (X & HX & Hfill).
    + apply length_replicate.
    + lia.
    + intros j Hj. split; [apply HEf; lia|].
      apply get_dense_filled. rewrite length_tabulate. fold q. lia.
    + exists X. split; [exact HX|].
      split; [rewrite (butterfly_loop_length _ _ _ _ _ _ _ _ HX);
              apply length_replicate|].
      split.
      * intros idx Hidx. apply Hfill.
        replace ((2 * q + 1) / 2)%nat with q by lia. lia.
      * rewrite (butterfly_loop_untouched _ _ _ _ _ _ _ _ (2 * q) HX).
        -- unfold new_Array. apply lookup_replicate_2. lia.
        -- replace ((2 * q + 1) / 2)%nat with q by lia.
           intros j Hj. lia.
Qed.

Lemma power_of_two_decidable (n : nat) :
  is_power_of_two n \/ ~ is_power_of_two n.
Proof.
  destruct (Nat.eq_dec n (2 ^ Nat.log2 n)%nat) as [E|E].
  - left. exists (Nat.log2 n). exact E.
  - right. intros [m Hm]. apply E. rewrite Hm at 2.
    rewrite Nat.log2_pow2 by lia. exact Hm.
Qed.

Lemma Backup_fft_odd_length_returns (data : list Complex) (X : JSArray) :
  fft_by FloorHalf data = Ok X ->
  Nat.odd (length data) = true -> (3 <= length data)%nat ->
  exists m : nat, length data = (2 ^ S m + 1)%nat.
Proof.
  intros Hfft Hodd H3.
  apply Nat.odd_spec in Hodd. destruct Hodd as [q Hq].
  assert (Hq1 : q <> 0%nat) by lia.
  rewrite fft_unfold in Hfft.
  destruct (le_lt_dec (length data) 1) as [|_]; [lia|]. cbv zeta in Hfft.
  destruct (fft_by FloorHalf (filter_index even_index data)) as [E|];
    [|discriminate].
  destruct (fft_by FloorHalf (filter_index odd_index data)) as [O|] eqn:HO;
    [|discriminate].
  cbn [bind trips] in Hfft.
  assert (Hlo : length (filter_index odd_index data) = q)
    by (rewrite length_filter_odd, Hq; lia).
  assert (Hp : is_power_of_two q).
  { destruct (power_of_two_decidable q) as [Hp|Hnp]; [exact Hp|]. exfalso.
    destruct (fft_by_non_power_of_two FloorHalf (filter_index odd_index data))
      as [Ht|(_ & _ & O' & HO' & _ & Hlast)].
    - rewrite Hlo. exact Hq1.
    - rewrite Hlo. exact Hnp.
    - congruence.
    - assert (O' = O) as -> by congruence. rewrite Hlo in Hlast.
      rewrite (butterfly_loop_throw FloorHalf (length data) E O
                 (length data / 2) 0 (new_Array (length data)) (q - 1))
        in Hfft; [discriminate| |].
      + rewrite Hq. lia.
      + right. unfold get. rewrite Hlast. reflexivity. }
  destruct Hp as [j Hj]. exists j.
  rewrite Hq, Hj, Nat.pow_succ_r'. lia.
Qed.

(** X21.  The lengths on which [fft] returns at all.  The current version
    returns exactly on the empty signal and on the powers of two.  The
    backup version returns on these and, besides, on the lengths
    [2 ^ m + 1] with [m >= 1] (3, 5, 9, 17, ...), where the array it
    returns has its last slot empty; on every other length both versions
    end in [TypeError]. *)
Theorem fft_returns_iff (data : list Complex) :
  ((exists X : JSArray, App.fft data = Ok X)
   <-> length data = 0%nat \/ is_power_of_two (length data))
  /\ ((exists X : JSArray, Backup.fft data = Ok X)
      <-> length data = 0%nat \/ is_power_of_two (length data)
          \/ exists m : nat, length data = (2 ^ S m + 1)%nat)
  /\ ((exists m : nat, length data = (2 ^ S m + 1)%nat) ->
      exists X : JSArray,
        Backup.fft data = Ok X
        /\ length X = length data
        /\ (forall idx, (idx < length data - 1)%nat -> is_Some (get X idx))
        /\ X !! (length data - 1)%nat = Some None).
Proof.
  unfold App.fft, Backup.fft. split; [|split].
  - split.
    + intros [X HX].
      destruct (Nat.eq_dec (length data) 0%nat) as [H0|H0]; [left; exact H0|].
      right. destruct (power_of_two_decidable (length data)) as [Hp|Hnp];
        [exact Hp|]. exfalso.
      destruct (fft_by_non_power_of_two ExactHalf data H0 Hnp)
        as [Ht|(Hh & _)]; [congruence|discriminate Hh].
    + intros [H0|[m Hm]].
      * destruct data; [|discriminate H0]. eexists. apply fft_by_empty.
      * eexists. apply (fft_by_power_of_two ExactHalf m data Hm).
  - split.
    + intros [X HX].
      destruct (Nat.eq_dec (length data) 0%nat) as [H0|H0]; [left; exact H0|].
      right. destruct (power_of_two_decidable (length data)) as [Hp|Hnp];
        [left; exact Hp|]. right.
      destruct (fft_by_non_power_of_two FloorHalf data H0 Hnp)
        as [Ht|(_ & Hodd & _)]; [congruence|].
      apply (Backup_fft_odd_length_returns data X HX Hodd).
      destruct (length data) as [|[|[|n]]] eqn:E; try lia.
      * exfalso. apply Hnp. exists 0%nat. reflexivity.
      * discriminate Hodd.
    + intros [H0|[[m Hm]|[m Hm]]].
      * destruct data; [|discriminate H0]. eexists. apply fft_by_empty.
      * eexists. apply (fft_by_power_of_two FloorHalf m data Hm).
      * destruct (Backup_fft_power_of_two_plus_one m data Hm) as (X & HX & _).
        exists X. exact HX.
  - intros [m Hm].
    destruct (Backup_fft_power_of_two_plus_one m data Hm)
      as (X & HX & HL & Hf & Hlast).
    exists X. rewrite Hm.
    replace (2 ^ S m + 1 - 1)%nat with (2 ^ S m)%nat by lia.
    repeat split; assumption.
Qed.

Lemma fft_returns_iff_witness :
  exists X : JSArray,
    Backup.fft (replicate 5 zero) = Ok X
    /\ length X = length (replicate 5 zero)
    /\ (forall idx, (idx < length (replicate 5 zero) - 1)%nat ->
        is_Some (get X idx))
    /\ X !! (length (replicate 5 zero) - 1)%nat = Some None.
Proof.
  apply (proj2 (proj2 (fft_returns_iff (replicate 5 zero)))).
  exists 1%nat. reflexivity.
Defined.
